(** * cmd/mount: the FUSE mount lifecycle of rclone

    A shallow embedding of [cmd/mount/mount.go]: the option builder
    [mountOptions], the mount establisher [mount] with its background
    serve goroutine, and the wait loop of [Mount].

    Go values are modelled as follows.
    - [error] is [option string]: [None] is [nil], [Some m] an error whose
      [Error()] text is [m].
    - a buffered channel is the list of its pending values, oldest first,
      together with the capacity given to [make].
    - calls into the FUSE transport, the VFS and the operating system are
      answered by the schedule: every point where the Go program waits for
      the outside world is one [Step] that carries the answer. *)

From Stdlib Require Import List String ZArith Bool Arith Lia.
Import ListNotations.
Open Scope string_scope.
Open Scope list_scope.
Open Scope nat_scope.

(** ** Errors *)

Definition error := option string.

(** [errors.Wrap(err, message)]: [nil] stays [nil], otherwise the text is
    [message ++ ": " ++ err.Error()]. *)
Definition Wrap (err : error) (message : string) : error :=
  match err with
  | None => None
  | Some e => Some (message ++ ": " ++ e)%string
  end.

(** ** Log output ([fs.Debugf], [fs.Errorf]) *)

Inductive LogLevel := LDebug | LError.

Record LogEntry := Logf {
  log_level : LogLevel;
  log_format : string;
  log_args : list string
}.

(** ** The option builder *)

Module Options.

(** The [fuse.MountOption] values [mountOptions] can produce. *)
Inductive MountOption :=
| MaxReadahead (n : Z)
| Subtype (s : string)
| FSName (s : string)
| VolumeName (s : string)
| NoAppleDouble
| NoAppleXattr
| AllowNonEmptyMount
| AllowOther
| AllowRoot
| DefaultPermissions
| ReadOnly
| WritebackCache.

(** The package-level flags read by [mountOptions] and [Mount]:
    [mountlib.*] and [vfsflags.Opt.ReadOnly]. *)
Record Config := {
  MaxReadAhead : Z;              (* mountlib.MaxReadAhead, an int64 size *)
  AllowNonEmpty : bool;
  AllowOther_ : bool;
  AllowRoot_ : bool;
  DefaultPermissions_ : bool;
  OptReadOnly : bool;            (* vfsflags.Opt.ReadOnly *)
  WritebackCache_ : bool;
  ExtraOptions : list string;
  DebugFUSE : bool
}.

(** The Go conversion [uint32(x)] of a signed 64-bit value. *)
Definition uint32 (x : Z) : Z := Z.modulo x (2 ^ 32)%Z.

Definition warn_option : LogEntry :=
  Logf LError "-o/--option not supported with this FUSE backend" [].

Definition warn_fuse_flag : LogEntry :=
  Logf LError "--fuse-flag not supported with this FUSE backend" [].

(** [mountOptions(device)]: the options, and the lines it logs. *)
Definition mountOptions (cfg : Config) (device : string)
  : list MountOption * list LogEntry :=
  let options :=
    [ MaxReadahead (uint32 (MaxReadAhead cfg));
      Subtype "rclone";
      FSName device; VolumeName device;
      NoAppleDouble;
      NoAppleXattr ] in
  let options :=
    if AllowNonEmpty cfg then options ++ [AllowNonEmptyMount] else options in
  let options :=
    if AllowOther_ cfg then options ++ [AllowOther] else options in
  let options :=
    if AllowRoot_ cfg then options ++ [AllowRoot] else options in
  let options :=
    if DefaultPermissions_ cfg then options ++ [DefaultPermissions]
    else options in
  let options :=
    if OptReadOnly cfg then options ++ [ReadOnly] else options in
  let options :=
    if WritebackCache_ cfg then options ++ [WritebackCache] else options in
  let log : list LogEntry := [] in
  let log :=
    if 0 <? List.length (ExtraOptions cfg) then log ++ [warn_option] else log in
  let log :=
    if 0 <? List.length (ExtraOptions cfg) then log ++ [warn_fuse_flag] else log in
  (options, log).

(** *** The builder as the specification words it *)

(** The boolean options of the configuration with the token each one
    stands for, in the order the specification lists them. *)
Definition flag_table : list ((Config -> bool) * MountOption) :=
  [ (AllowNonEmpty, AllowNonEmptyMount);
    (AllowOther_, AllowOther);
    (AllowRoot_, AllowRoot);
    (DefaultPermissions_, DefaultPermissions);
    (OptReadOnly, ReadOnly);
    (WritebackCache_, WritebackCache) ].

(** "Exactly the tokens implied by true-valued recognized options". *)
Definition implied_tokens (cfg : Config) : list MountOption :=
  map snd (filter (fun p => fst p cfg) flag_table).

(** The tokens the code emits whatever the boolean options are. *)
Definition fixed_tokens (cfg : Config) (device : string) : list MountOption :=
  [ MaxReadahead (uint32 (MaxReadAhead cfg));
    Subtype "rclone";
    FSName device; VolumeName device;
    NoAppleDouble;
    NoAppleXattr ].

Definition with_extra (cfg : Config) (extra : list string) : Config :=
  {| MaxReadAhead := MaxReadAhead cfg;
     AllowNonEmpty := AllowNonEmpty cfg;
     AllowOther_ := AllowOther_ cfg;
     AllowRoot_ := AllowRoot_ cfg;
     DefaultPermissions_ := DefaultPermissions_ cfg;
     OptReadOnly := OptReadOnly cfg;
     WritebackCache_ := WritebackCache_ cfg;
     ExtraOptions := extra;
     DebugFUSE := DebugFUSE cfg |}.

(** A configuration with every boolean option off. *)
Definition all_off : Config :=
  {| MaxReadAhead := 131072%Z;
     AllowNonEmpty := false;
     AllowOther_ := false;
     AllowRoot_ := false;
     DefaultPermissions_ := false;
     OptReadOnly := false;
     WritebackCache_ := false;
     ExtraOptions := [];
     DebugFUSE := false |}.

End Options.

(** ** The mount lifecycle *)

Module Lifecycle.
Import Options.

(** The signals [Mount] subscribes to. *)
Inductive Signal := SIGINT | SIGTERM | SIGHUP.

(** *** Buffered channels *)

Definition chan (A : Type) := list A.

(** [c <- v] on a channel made with capacity [cap]: [None] when the send
    would block. *)
Definition send {A} (cap : nat) (c : chan A) (v : A) : option (chan A) :=
  if List.length c <? cap then Some (c ++ [v]) else None.

(** [<-c]: [None] when the receive would block. *)
Definition recv {A} (c : chan A) : option (A * chan A) :=
  match c with
  | [] => None
  | v :: rest => Some (v, rest)
  end.

(** The relay of [signal.Notify]: it does not block sending, a signal
    that finds the buffer full is dropped. *)
Definition notify {A} (cap : nat) (c : chan A) (v : A) : chan A :=
  match send cap c v with
  | Some c' => c'
  | None => c
  end.

Definition errChan_cap : nat := 1.   (* make(chan error, 1) *)
Definition sigInt_cap : nat := 1.    (* make(chan os.Signal, 1) *)
Definition sigHup_cap : nat := 1.    (* make(chan os.Signal, 1) *)

(** *** Observable actions *)

Inductive Action :=
| ASetDebug                       (* fuse.Debug = func ... *)
| ALog (l : LogEntry)
| AFuseMount (mountpoint : string) (opts : list MountOption) (err : error)
| AGo                             (* go func() { ... }() *)
| AServeRet (err : error)         (* server.Serve(filesys) returned *)
| ACloseRet (err : error)         (* c.Close() returned *)
| ASend (err : error)             (* errChan <- err *)
| AReady (mountError : error)     (* <-c.Ready, then c.MountError *)
| ARecvErr (err : error)          (* case err = <-errChan *)
| ARecvInt (s : Signal)           (* case <-sigInt *)
| ARecvHup (s : Signal)           (* case <-sigHup *)
| AUnmountCall (mountpoint : string)
| AUnmountRet (err : error)
| ARoot (err : error)             (* FS.Root() returned *)
| AForgetAll.                     (* root.ForgetAll() *)

(** *** States *)

(** Where the goroutine that called [Mount] is. *)
Inductive Ctl :=
| Start                 (* MOUNTING: before fuse.Mount has returned *)
| WaitReady             (* MOUNTING: blocked in <-c.Ready *)
| Serving               (* SERVING: blocked in the select *)
| Unmounting            (* UNMOUNTING: inside unmount() *)
| Done (result : error).

(** Where the goroutine started by [mount] is. *)
Inductive Task :=
| NotStarted
| InServe                    (* inside server.Serve(filesys) *)
| InClose (err : error)      (* inside c.Close() *)
| AtSend (err : error)       (* at errChan <- err *)
| Exited.

Record State := mkState {
  ctl : Ctl;
  task : Task;
  err : error;                 (* the variable err of Mount *)
  errChan : chan error;
  sigInt : chan Signal;
  sigHup : chan Signal;
  notifying : bool;            (* signal.Notify has been called *)
  trace : list Action
}.

Definition with_ctl (c : Ctl) (st : State) : State :=
  mkState c (task st) (err st) (errChan st) (sigInt st) (sigHup st)
          (notifying st) (trace st).
Definition with_task (t : Task) (st : State) : State :=
  mkState (ctl st) t (err st) (errChan st) (sigInt st) (sigHup st)
          (notifying st) (trace st).
Definition with_err (e : error) (st : State) : State :=
  mkState (ctl st) (task st) e (errChan st) (sigInt st) (sigHup st)
          (notifying st) (trace st).
Definition with_errChan (c : chan error) (st : State) : State :=
  mkState (ctl st) (task st) (err st) c (sigInt st) (sigHup st)
          (notifying st) (trace st).
Definition with_sigInt (c : chan Signal) (st : State) : State :=
  mkState (ctl st) (task st) (err st) (errChan st) c (sigHup st)
          (notifying st) (trace st).
Definition with_sigHup (c : chan Signal) (st : State) : State :=
  mkState (ctl st) (task st) (err st) (errChan st) (sigInt st) c
          (notifying st) (trace st).
Definition with_notifying (b : bool) (st : State) : State :=
  mkState (ctl st) (task st) (err st) (errChan st) (sigInt st) (sigHup st)
          b (trace st).
Definition emit (l : list Action) (st : State) : State :=
  mkState (ctl st) (task st) (err st) (errChan st) (sigInt st) (sigHup st)
          (notifying st) (trace st ++ l).

Definition init : State :=
  mkState Start NotStarted None [] [] [] false [].

(** *** Steps

    One step is one return from a blocking point of either goroutine, or
    one signal arriving from the operating system. *)
Inductive Step :=
| FuseMountReturns (err : error)     (* fuse.Mount returns *)
| ReadyCloses (mountError : error)   (* c.Ready is closed *)
| ServeReturns (err : error)         (* server.Serve returns *)
| CloseReturns (closeErr : error)    (* c.Close returns *)
| TaskSends                          (* errChan <- err goes through *)
| Deliver (s : Signal)               (* the process receives a signal *)
| SelectErrChan                      (* select takes case err = <-errChan *)
| SelectSigInt                       (* select takes case <-sigInt *)
| SelectSigHup (rootErr : error)     (* select takes case <-sigHup *)
| UnmountReturns (err : error).      (* fuse.Unmount returns *)

(** The remote [f fs.Fs], as far as [mount] looks at it. *)
Record Fs := { Name : string; Root : string }.

Section Program.

Variable cfg : Config.
Variable f : Fs.
Variable mountpoint : string.

(** The goroutine of [mount], lines 86 to 93. *)
Definition serve_task (st : State) (s : Step) : option State :=
  match s, task st with
  | ServeReturns e, InServe =>
      Some (with_task (InClose e) (emit [AServeRet e] st))
  | CloseReturns closeErr, InClose e =>
      let e := match e with None => closeErr | Some _ => e end in
      Some (with_task (AtSend e) (emit [ACloseRet closeErr] st))
  | TaskSends, AtSend e =>
      match send errChan_cap (errChan st) e with
      | Some c => Some (with_task Exited (with_errChan c (emit [ASend e] st)))
      | None => None
      end
  | _, _ => None
  end.

(** [Mount] after [mount] has returned [err], lines 120 to 127. *)
Definition Mount_mounted (err : error) (st : State) : State :=
  match err with
  | Some _ =>
      with_ctl (Done (Wrap err "failed to mount FUSE fs")) (with_err err st)
  | None =>
      with_ctl Serving
        (with_notifying true
           (with_sigHup [] (with_sigInt [] (with_err None st))))
  end.

(** [mount], and the lines of [Mount] before it. *)
Definition mount (st : State) (s : Step) : option State :=
  match s, ctl st with
  | FuseMountReturns err, Start =>
      let debug := if DebugFUSE cfg then [ASetDebug] else [] in
      let '(options, warnings) :=
        mountOptions cfg (Name f ++ ":" ++ Root f)%string in
      let st :=
        emit (debug
              ++ [ALog (Logf LDebug "Mounting on %q" [mountpoint])]
              ++ map ALog warnings
              ++ [AFuseMount mountpoint options err]) st in
      match err with
      | Some _ => Some (Mount_mounted err st)
      | None =>
          Some (with_ctl WaitReady
                  (with_task InServe (with_errChan [] (emit [AGo] st))))
      end
  | ReadyCloses mountError, WaitReady =>
      Some (Mount_mounted mountError (emit [AReady mountError] st))
  | _, _ => None
  end.

(** [Mount] after the wait loop, lines 150 to 154. *)
Definition Mount_return (st : State) : State :=
  match err st with
  | Some _ => with_ctl (Done (Wrap (err st) "failed to umount FUSE fs")) st
  | None => with_ctl (Done None) st
  end.

(** The wait loop of [Mount], lines 129 to 148.  In the [sigHup] case the
    error of [FS.Root()] is bound by [:=] to a new variable, so the [err]
    of [Mount] is not assigned. *)
Definition waitloop (st : State) (s : Step) : option State :=
  match s, ctl st with
  | SelectErrChan, Serving =>
      match recv (errChan st) with
      | Some (e, c) =>
          Some (Mount_return
                  (with_err e (with_errChan c (emit [ARecvErr e] st))))
      | None => None
      end
  | SelectSigInt, Serving =>
      match recv (sigInt st) with
      | Some (sg, c) =>
          Some (with_ctl Unmounting
                  (with_sigInt c
                     (emit [ARecvInt sg; AUnmountCall mountpoint] st)))
      | None => None
      end
  | UnmountReturns e, Unmounting =>
      Some (Mount_return (with_err e (emit [AUnmountRet e] st)))
  | SelectSigHup rootErr, Serving =>
      match recv (sigHup st) with
      | Some (sg, c) =>
          let st := with_sigHup c (emit [ARecvHup sg; ARoot rootErr] st) in
          match rootErr with
          | Some e =>
              Some (emit [ALog (Logf LError "Error reading root: %v" [e])] st)
          | None => Some (emit [AForgetAll] st)
          end
      | None => None
      end
  | _, _ => None
  end.

(** A signal reaches the process: [signal.Notify(sigInt, SIGINT, SIGTERM)]
    and [signal.Notify(sigHup, SIGHUP)] relay it.  Before the two calls
    the signal has its default disposition, which ends the process: such
    a schedule is not one of [Mount]. *)
Definition deliver (st : State) (sg : Signal) : option State :=
  if notifying st then
    match sg with
    | SIGHUP => Some (with_sigHup (notify sigHup_cap (sigHup st) sg) st)
    | SIGINT | SIGTERM =>
        Some (with_sigInt (notify sigInt_cap (sigInt st) sg) st)
    end
  else None.

(** [Mount], the goroutine of the caller: [mount], then the wait loop. *)
Definition Mount (st : State) (s : Step) : option State :=
  match s with
  | FuseMountReturns _ | ReadyCloses _ => mount st s
  | _ => waitloop st s
  end.

(** One step of the whole program: of the serve task, of the operating
    system, or of [Mount]. *)
Definition step (st : State) (s : Step) : option State :=
  match s with
  | ServeReturns _ | CloseReturns _ | TaskSends => serve_task st s
  | Deliver sg => deliver st sg
  | FuseMountReturns _ | ReadyCloses _
  | SelectErrChan | SelectSigInt | SelectSigHup _ | UnmountReturns _ =>
      Mount st s
  end.

(** A schedule is run from left to right; [None] when one of its steps
    cannot happen in the state it meets. *)
Fixpoint run (st : State) (sched : list Step) : option State :=
  match sched with
  | [] => Some st
  | s :: rest =>
      match step st s with
      | Some st' => run st' rest
      | None => None
      end
  end.

(** *** Reading the trace *)

(** The values [sel] picks out of a trace, in order. *)
Definition pick {T} (sel : Action -> option T) (tr : list Action) : list T :=
  flat_map (fun a => match sel a with Some x => [x] | None => [] end) tr.

Definition fuse_mounts : list Action -> list error :=
  pick (fun a => match a with AFuseMount _ _ e => Some e | _ => None end).
Definition task_starts : list Action -> list unit :=
  pick (fun a => match a with AGo => Some tt | _ => None end).
Definition serve_rets : list Action -> list error :=
  pick (fun a => match a with AServeRet e => Some e | _ => None end).
Definition close_rets : list Action -> list error :=
  pick (fun a => match a with ACloseRet e => Some e | _ => None end).
Definition sends : list Action -> list error :=
  pick (fun a => match a with ASend e => Some e | _ => None end).
Definition readies : list Action -> list error :=
  pick (fun a => match a with AReady e => Some e | _ => None end).
Definition recvs : list Action -> list error :=
  pick (fun a => match a with ARecvErr e => Some e | _ => None end).
Definition interrupts : list Action -> list Signal :=
  pick (fun a => match a with ARecvInt s => Some s | _ => None end).
Definition hangups : list Action -> list Signal :=
  pick (fun a => match a with ARecvHup s => Some s | _ => None end).
Definition unmount_calls : list Action -> list string :=
  pick (fun a => match a with AUnmountCall m => Some m | _ => None end).
Definition unmount_rets : list Action -> list error :=
  pick (fun a => match a with AUnmountRet e => Some e | _ => None end).
Definition root_rets : list Action -> list error :=
  pick (fun a => match a with ARoot e => Some e | _ => None end).
Definition forget_alls : list Action -> list unit :=
  pick (fun a => match a with AForgetAll => Some tt | _ => None end).
Definition logged : list Action -> list LogEntry :=
  pick (fun a => match a with ALog l => Some l | _ => None end).

(** *** The specification's words *)

(** "The first non-nil of" a list of errors. *)
Fixpoint first_non_nil (l : list error) : error :=
  match l with
  | [] => None
  | Some e :: _ => Some e
  | None :: rest => first_non_nil rest
  end.

(** "Reported error = unmount error if non-nil, else serve-result error",
    under the phase tag of the code. *)
Definition reported_after_interrupt (unmountErr serveErr : error) : error :=
  Wrap (first_non_nil [unmountErr; serveErr]) "failed to umount FUSE fs".

(** The two phase tags as the specification spells them. *)
Definition spec_tag_mount : string := "failed to mount".
Definition spec_tag_unmount : string := "failed to unmount".

(** The two phase tags as [Mount] spells them. *)
Definition tag_mount : string := "failed to mount FUSE fs".
Definition tag_umount : string := "failed to umount FUSE fs".

(** The mount was established: [fuse.Mount] returned no error and the
    readiness signal carried none. *)
Definition established (tr : list Action) : Prop :=
  fuse_mounts tr = [None] /\ readies tr = [None].

(** The wait loop was left with the error [e]: received from the serve
    task, or returned by the unmount [Mount] called. *)
Definition left_loop_with (e : error) (tr : list Action) : Prop :=
  (recvs tr = [e] /\ unmount_rets tr = [])
  \/ (recvs tr = [] /\ unmount_rets tr = [e]).

(** Clean shutdown: the mount was established and the wait loop was left
    without an error. *)
Definition clean_shutdown (tr : list Action) : Prop :=
  established tr /\ left_loop_with None tr.


(** [n] hang-ups, each one delivered and then taken by the select, with
    the answers of [FS.Root()] in [roots]. *)
Definition hangup_rounds (roots : list error) : list Step :=
  flat_map (fun r => [Deliver SIGHUP; SelectSigHup r]) roots.

Definition is_nil (e : error) : bool :=
  match e with None => true | Some _ => false end.

(** The schedule in which every root lookup of a cache clear succeeds. *)
Definition heal (s : Step) : Step :=
  match s with
  | SelectSigHup _ => SelectSigHup None
  | _ => s
  end.

(** Two states that differ at most in what has been observed so far. *)
Definition same_but_trace (a b : State) : Prop :=
  ctl a = ctl b /\ task a = task b /\ err a = err b
  /\ errChan a = errChan b /\ sigInt a = sigInt b /\ sigHup a = sigHup b
  /\ notifying a = notifying b.

(** *** Invariants of the reachable states *)

(** What the trace holds at each point of the goroutine of [Mount]. *)
Definition ctl_inv (st : State) : Prop :=
  let tr := trace st in
  match ctl st with
  | Start =>
      fuse_mounts tr = [] /\ task_starts tr = [] /\ readies tr = []
      /\ recvs tr = [] /\ interrupts tr = [] /\ unmount_calls tr = []
      /\ unmount_rets tr = [] /\ task st = NotStarted
  | WaitReady =>
      fuse_mounts tr = [None] /\ task_starts tr = [tt] /\ readies tr = []
      /\ recvs tr = [] /\ interrupts tr = [] /\ unmount_calls tr = []
      /\ unmount_rets tr = [] /\ task st <> NotStarted
  | Serving =>
      fuse_mounts tr = [None] /\ task_starts tr = [tt] /\ readies tr = [None]
      /\ recvs tr = [] /\ interrupts tr = [] /\ unmount_calls tr = []
      /\ unmount_rets tr = [] /\ task st <> NotStarted
      /\ err st = None /\ notifying st = true
  | Unmounting =>
      fuse_mounts tr = [None] /\ task_starts tr = [tt] /\ readies tr = [None]
      /\ recvs tr = [] /\ (exists sg, interrupts tr = [sg])
      /\ unmount_calls tr = [mountpoint]
      /\ unmount_rets tr = [] /\ task st <> NotStarted
  | Done r =>
      (exists e, fuse_mounts tr = [Some e] /\ task_starts tr = []
         /\ readies tr = [] /\ recvs tr = [] /\ interrupts tr = []
         /\ unmount_calls tr = [] /\ unmount_rets tr = []
         /\ task st = NotStarted
         /\ r = Some (tag_mount ++ ": " ++ e)%string)
      \/ (exists e, fuse_mounts tr = [None] /\ task_starts tr = [tt]
         /\ readies tr = [Some e] /\ recvs tr = [] /\ interrupts tr = []
         /\ unmount_calls tr = [] /\ unmount_rets tr = []
         /\ task st <> NotStarted
         /\ r = Some (tag_mount ++ ": " ++ e)%string)
      \/ (exists e, fuse_mounts tr = [None] /\ task_starts tr = [tt]
         /\ readies tr = [None] /\ recvs tr = [e] /\ interrupts tr = []
         /\ unmount_calls tr = [] /\ unmount_rets tr = []
         /\ task st <> NotStarted
         /\ r = Wrap e tag_umount)
      \/ (exists e, fuse_mounts tr = [None] /\ task_starts tr = [tt]
         /\ readies tr = [None] /\ recvs tr = []
         /\ (exists sg, interrupts tr = [sg])
         /\ unmount_calls tr = [mountpoint] /\ unmount_rets tr = [e]
         /\ task st <> NotStarted
         /\ r = Wrap e tag_umount)
  end.

(** What the trace and the result channel hold at each point of the serve
    task. *)
Definition task_inv (st : State) : Prop :=
  let tr := trace st in
  recvs tr ++ errChan st = sends tr
  /\ match task st with
     | NotStarted =>
         task_starts tr = [] /\ serve_rets tr = [] /\ close_rets tr = []
         /\ sends tr = []
     | InServe =>
         task_starts tr = [tt] /\ serve_rets tr = [] /\ close_rets tr = []
         /\ sends tr = []
     | InClose e =>
         task_starts tr = [tt] /\ serve_rets tr = [e] /\ close_rets tr = []
         /\ sends tr = []
     | AtSend v =>
         task_starts tr = [tt] /\ sends tr = []
         /\ exists e closeErr,
              serve_rets tr = [e] /\ close_rets tr = [closeErr]
              /\ v = first_non_nil [e; closeErr]
     | Exited =>
         task_starts tr = [tt]
         /\ exists e closeErr,
              serve_rets tr = [e] /\ close_rets tr = [closeErr]
              /\ sends tr = [first_non_nil [e; closeErr]]
     end.

Definition inv (st : State) : Prop := ctl_inv st /\ task_inv st.

(** ** Facts about traces and channels *)

Lemma pick_app {T} (sel : Action -> option T) (a b : list Action) :
  pick sel (a ++ b) = pick sel a ++ pick sel b.
Proof. unfold pick. apply flat_map_app. Qed.

Lemma pick_logs {T} (sel : Action -> option T) (ls : list LogEntry) :
  (forall l, sel (ALog l) = None) -> pick sel (map ALog ls) = [].
Proof.
  intros Hsel. induction ls as [|l ls IH]; simpl; [reflexivity|].
  rewrite Hsel. exact IH.
Qed.

Ltac selectors :=
  unfold fuse_mounts, task_starts, serve_rets, close_rets, sends, readies,
    recvs, interrupts, hangups, unmount_calls, unmount_rets, root_rets,
    forget_alls in *.

Ltac split_trace :=
  selectors;
  repeat first
    [ rewrite pick_app
    | rewrite pick_logs by reflexivity
    | progress simpl ].

Lemma send_empty {A} (cap : nat) (v : A) :
  1 <= cap -> send cap [] v = Some [v].
Proof.
  intros Hcap. unfold send. simpl.
  destruct (Nat.ltb_spec 0 cap) as [_|Hle]; [reflexivity|lia].
Qed.

Lemma notify_empty {A} (cap : nat) (v : A) :
  1 <= cap -> notify cap [] v = [v].
Proof. intros Hcap. unfold notify. rewrite send_empty by exact Hcap. reflexivity. Qed.

(** ** The invariants hold in every reachable state *)

(** What [mountOptions] returns plays no part in the lifecycle. *)
#[local] Opaque mountOptions.

Lemma inv_init : inv init.
Proof. unfold inv, ctl_inv, task_inv. simpl. repeat split; reflexivity. Qed.

Lemma step_ctl_inv st s st' :
  inv st -> step st s = Some st' -> ctl_inv st'.
Proof.
  intros [Hc Ht] Hs.
  destruct st as [c t e ec si sh n tr].
  unfold ctl_inv, task_inv in *; simpl in *.
  destruct s as [me|me|se|ce| |sg| | |re|ue]; simpl in Hs.
  - (* fuse.Mount returns *)
    unfold mount in Hs; simpl in Hs.
    destruct c; try discriminate.
    destruct (mountOptions _ _) as [o w].
    destruct Hc as (H1 & H2 & H3 & H4 & H5 & H6 & H7 & H8).
    destruct me as [m|]; injection Hs as <-; simpl;
      destruct (DebugFUSE cfg); split_trace;
      rewrite ?H1, ?H2, ?H3, ?H4, ?H5, ?H6, ?H7; simpl.
    1,2: left; exists m; repeat split; auto.
    1,2: repeat split; auto; discriminate.
  - (* c.Ready is closed *)
    unfold mount in Hs; simpl in Hs.
    destruct c; try discriminate.
    destruct Hc as (H1 & H2 & H3 & H4 & H5 & H6 & H7 & H8).
    destruct me as [m|]; injection Hs as <-; simpl; split_trace;
      rewrite ?H1, ?H2, ?H3, ?H4, ?H5, ?H6, ?H7; simpl.
    + right; left; exists m; repeat split; auto.
    + repeat split; auto.
  - (* server.Serve returns *)
    unfold serve_task in Hs; simpl in Hs.
    destruct t; try discriminate. injection Hs as <-; simpl.
    destruct c; split_trace; rewrite ?app_nil_r;
      try (intuition (auto; discriminate)).
    destruct Hc as [(m & H)|[(m & H)|[(m & H)|(m & H)]]];
      [left|right; left|right; right; left|right; right; right];
      exists m; intuition (auto; discriminate).
  - (* c.Close returns *)
    unfold serve_task in Hs; simpl in Hs.
    destruct t; try discriminate. injection Hs as <-; simpl.
    destruct c; split_trace; rewrite ?app_nil_r;
      try (intuition (auto; discriminate)).
    destruct Hc as [(m & H)|[(m & H)|[(m & H)|(m & H)]]];
      [left|right; left|right; right; left|right; right; right];
      exists m; intuition (auto; discriminate).
  - (* errChan <- err *)
    unfold serve_task in Hs; simpl in Hs.
    destruct t; try discriminate.
    destruct (send errChan_cap ec err0); try discriminate.
    injection Hs as <-; simpl.
    destruct c; split_trace; rewrite ?app_nil_r;
      try (intuition (auto; discriminate)).
    destruct Hc as [(m & H)|[(m & H)|[(m & H)|(m & H)]]];
      [left|right; left|right; right; left|right; right; right];
      exists m; intuition (auto; discriminate).
  - (* a signal *)
    unfold deliver in Hs; simpl in Hs.
    destruct n; try discriminate.
    destruct sg; injection Hs as <-; simpl; exact Hc.
  - (* case err = <-errChan *)
    unfold waitloop in Hs; simpl in Hs.
    destruct c; try discriminate.
    destruct ec as [|v ec]; simpl in Hs; try discriminate.
    destruct Hc as (H1 & H2 & H3 & H4 & H5 & H6 & H7 & H8 & H9 & H10).
    unfold Mount_return in Hs; simpl in Hs.
    destruct v as [m|]; injection Hs as <-; simpl; split_trace;
      rewrite ?H1, ?H2, ?H3, ?H4, ?H5, ?H6, ?H7; simpl.
    + right; right; left; exists (Some m); repeat split; auto.
    + right; right; left; exists None; repeat split; auto.
  - (* case <-sigInt *)
    unfold waitloop in Hs; simpl in Hs.
    destruct c; try discriminate.
    destruct si as [|v si]; simpl in Hs; try discriminate.
    destruct Hc as (H1 & H2 & H3 & H4 & H5 & H6 & H7 & H8 & H9 & H10).
    injection Hs as <-; simpl; split_trace;
      rewrite ?H1, ?H2, ?H3, ?H4, ?H5, ?H6, ?H7; simpl.
    repeat split; auto. exists v; reflexivity.
  - (* case <-sigHup *)
    unfold waitloop in Hs; simpl in Hs.
    destruct c; try discriminate.
    destruct sh as [|v sh]; simpl in Hs; try discriminate.
    destruct Hc as (H1 & H2 & H3 & H4 & H5 & H6 & H7 & H8 & H9 & H10).
    destruct re as [m|]; injection Hs as <-; simpl; split_trace;
      rewrite ?H1, ?H2, ?H3, ?H4, ?H5, ?H6, ?H7, ?app_nil_r; simpl;
      repeat split; auto.
  - (* fuse.Unmount returns *)
    unfold waitloop in Hs; simpl in Hs.
    destruct c; try discriminate.
    destruct Hc as (H1 & H2 & H3 & H4 & (sg & H5) & H6 & H7 & H8).
    unfold Mount_return in Hs; simpl in Hs.
    destruct ue as [m|]; injection Hs as <-; simpl; split_trace;
      rewrite ?H1, ?H2, ?H3, ?H4, ?H5, ?H6, ?H7; simpl.
    + right; right; right; exists (Some m); repeat split; auto.
      exists sg; reflexivity.
    + right; right; right; exists None; repeat split; auto.
      exists sg; reflexivity.
Qed.

Lemma app_eq_nil_l {A} (a b : list A) : a ++ b = [] -> a = [] /\ b = [].
Proof. destruct a; simpl; [auto|discriminate]. Qed.

Lemma step_task_inv st s st' :
  inv st -> step st s = Some st' -> task_inv st'.
Proof.
  intros [Hc Ht] Hs.
  destruct st as [c t e ec si sh n tr].
  unfold ctl_inv, task_inv in *; simpl in *.
  destruct Ht as [Hfifo Ht].
  destruct s as [me|me|se|ce| |sg| | |re|ue]; simpl in Hs.
  - (* fuse.Mount returns *)
    unfold mount in Hs; simpl in Hs.
    destruct c; try discriminate.
    destruct (mountOptions _ _) as [o w].
    destruct Hc as (_ & _ & _ & _ & _ & _ & _ & ->).
    destruct Ht as (H1 & H2 & H3 & H4).
    rewrite H4 in Hfifo. apply app_eq_nil_l in Hfifo as [Hr ->].
    destruct me as [m|]; injection Hs as <-; simpl;
      destruct (DebugFUSE cfg); split_trace;
      rewrite ?H1, ?H2, ?H3, ?H4, ?Hr; simpl; repeat split; auto.
  - (* c.Ready is closed *)
    unfold mount in Hs; simpl in Hs.
    destruct c; try discriminate.
    destruct me as [m|]; injection Hs as <-; simpl; split_trace;
      rewrite ?app_nil_r; split; auto.
  - (* server.Serve returns *)
    unfold serve_task in Hs; simpl in Hs.
    destruct t; try discriminate. injection Hs as <-; simpl.
    clear Hc. destruct Ht as (H1 & H2 & H3 & H4). rewrite H4 in Hfifo.
    split_trace. rewrite ?app_nil_r, ?H1, ?H2, ?H3, ?H4. simpl.
    repeat split; auto.
  - (* c.Close returns *)
    unfold serve_task in Hs; simpl in Hs.
    destruct t as [| |se| |]; try discriminate. injection Hs as <-; simpl.
    clear Hc. destruct Ht as (H1 & H2 & H3 & H4). rewrite H4 in Hfifo.
    split_trace. rewrite ?app_nil_r, ?H1, ?H2, ?H3, ?H4. simpl.
    repeat split; auto.
    exists se, ce. repeat split; auto. destruct se, ce; reflexivity.
  - (* errChan <- err *)
    unfold serve_task in Hs; simpl in Hs.
    destruct t as [| | |v|]; try discriminate.
    destruct Ht as (H1 & H4 & se & ce & H2 & H3 & Hv).
    rewrite H4 in Hfifo. apply app_eq_nil_l in Hfifo as [Hr ->].
    rewrite send_empty in Hs by (unfold errChan_cap; lia).
    injection Hs as <-; simpl.
    split_trace. rewrite ?app_nil_r, ?H1, ?H2, ?H3, ?H4, ?Hr. simpl.
    repeat split; auto.
    exists se, ce. subst v. repeat split; auto.
  - (* a signal *)
    unfold deliver in Hs; simpl in Hs.
    destruct n; try discriminate.
    destruct sg; injection Hs as <-; simpl; split; assumption.
  - (* case err = <-errChan *)
    unfold waitloop in Hs; simpl in Hs.
    destruct c; try discriminate.
    destruct ec as [|v ec]; simpl in Hs; try discriminate.
    unfold Mount_return in Hs; simpl in Hs.
    selectors.
    assert (Hfifo' :
      (pick (fun a => match a with ARecvErr e => Some e | _ => None end) tr
       ++ [v]) ++ ec
      = pick (fun a => match a with ASend e => Some e | _ => None end) tr)
      by (rewrite <- app_assoc; exact Hfifo).
    destruct v as [m|]; injection Hs as <-; simpl; split_trace;
      rewrite ?app_nil_r; split; auto.
  - (* case <-sigInt *)
    unfold waitloop in Hs; simpl in Hs.
    destruct c; try discriminate.
    destruct si as [|v si]; simpl in Hs; try discriminate.
    injection Hs as <-; simpl; split_trace; rewrite ?app_nil_r; split; auto.
  - (* case <-sigHup *)
    unfold waitloop in Hs; simpl in Hs.
    destruct c; try discriminate.
    destruct sh as [|v sh]; simpl in Hs; try discriminate.
    destruct re as [m|]; injection Hs as <-; simpl; split_trace;
      rewrite ?app_nil_r; split; auto.
  - (* fuse.Unmount returns *)
    unfold waitloop in Hs; simpl in Hs.
    destruct c; try discriminate.
    unfold Mount_return in Hs; simpl in Hs.
    destruct ue as [m|]; injection Hs as <-; simpl; split_trace;
      rewrite ?app_nil_r; split; auto.
Qed.

Lemma step_inv st s st' : inv st -> step st s = Some st' -> inv st'.
Proof.
  intros Hinv Hs. split;
    [eapply step_ctl_inv | eapply step_task_inv]; eassumption.
Qed.

Lemma run_inv sched : forall st st',
  inv st -> run st sched = Some st' -> inv st'.
Proof.
  induction sched as [|s sched IH]; simpl; intros st st' Hinv Hrun.
  - injection Hrun as <-. exact Hinv.
  - destruct (step st s) as [st1|] eqn:Hs; [|discriminate].
    eapply IH; [|exact Hrun]. eapply step_inv; eassumption.
Qed.

Lemma reachable_inv sched st : run init sched = Some st -> inv st.
Proof. apply run_inv, inv_init. Qed.

Lemma run_app a : forall b st,
  run st (a ++ b) =
  match run st a with Some st' => run st' b | None => None end.
Proof.
  induction a as [|s a IH]; simpl; intros b st; [reflexivity|].
  destruct (step st s); [apply IH|reflexivity].
Qed.

(** ** The result of [Mount] *)

(** Once inside [unmount()], whatever [fuse.Unmount] returns ends
    [Mount]. *)
Lemma unmount_returns st ue :
  ctl st = Unmounting ->
  exists st', step st (UnmountReturns ue) = Some st'
              /\ ctl st' = Done (Wrap ue tag_umount)
              /\ errChan st' = errChan st.
Proof.
  intros Hc. simpl. unfold waitloop. rewrite Hc.
  eexists. split; [reflexivity|].
  unfold Mount_return. simpl. destruct ue; simpl; split; reflexivity.
Qed.

(** After the interrupt branch, [Mount] is inside the unmount call or done
    with what the call returned, and has not read the result channel. *)
Lemma after_interrupt sched st :
  run init sched = Some st ->
  interrupts (trace st) <> [] ->
  ((ctl st = Unmounting /\ unmount_rets (trace st) = [])
   \/ (exists ue, ctl st = Done (Wrap ue tag_umount)
                  /\ unmount_rets (trace st) = [ue]))
  /\ recvs (trace st) = [].
Proof.
  intros Hrun Hint. apply reachable_inv in Hrun as [Hc _].
  unfold ctl_inv in Hc. destruct (ctl st) as [| | | |r] eqn:Ec.
  - destruct Hc as (_ & _ & _ & _ & H & _). contradiction.
  - destruct Hc as (_ & _ & _ & _ & H & _). contradiction.
  - destruct Hc as (_ & _ & _ & _ & H & _). contradiction.
  - destruct Hc as (_ & _ & _ & Hr & _ & _ & Hret & _).
    split; [|exact Hr]. left. split; [reflexivity|exact Hret].
  - destruct Hc as [(e & H)|[(e & H)|[(e & H)|(e & H)]]].
    + destruct H as (_ & _ & _ & _ & H & _). contradiction.
    + destruct H as (_ & _ & _ & _ & H & _). contradiction.
    + destruct H as (_ & _ & _ & _ & H & _). contradiction.
    + destruct H as (_ & _ & _ & Hr & _ & _ & Hret & _ & ->).
      split; [|exact Hr]. right. exists e.
      split; [reflexivity|exact Hret].
Qed.

(** C1, as the code has it: once [Mount] has called the unmount (the
    interrupt branch was taken while serving), it is either still inside
    the call, and then any return value [ue] of the call ends it with
    [ue] wrapped as a failure to umount ([nil] when [ue] is [nil]); or it
    is done with exactly that result.  The result channel of the serve
    task has not been read. *)
Theorem result_after_unmount sched st :
  run init sched = Some st ->
  unmount_calls (trace st) <> [] ->
  recvs (trace st) = []
  /\ ((ctl st = Unmounting
       /\ forall ue, exists st',
            step st (UnmountReturns ue) = Some st'
            /\ ctl st' = Done (Wrap ue tag_umount))
      \/ (exists ue, unmount_rets (trace st) = [ue]
                     /\ ctl st = Done (Wrap ue tag_umount))).
Proof.
  intros Hrun Hcall. apply reachable_inv in Hrun as [Hc _].
  unfold ctl_inv in Hc. destruct (ctl st) as [| | | |r] eqn:Ec.
  - destruct Hc as (_ & _ & _ & _ & _ & H & _). contradiction.
  - destruct Hc as (_ & _ & _ & _ & _ & H & _). contradiction.
  - destruct Hc as (_ & _ & _ & _ & _ & H & _). contradiction.
  - destruct Hc as (_ & _ & _ & Hr & _). split; [exact Hr|]. left.
    split; [reflexivity|]. intros ue.
    destruct (unmount_returns st ue Ec) as (st' & Hs & Hd & _).
    exists st'. split; assumption.
  - destruct Hc as [(e & H)|[(e & H)|[(e & H)|(e & H)]]].
    + destruct H as (_ & _ & _ & _ & _ & H & _). contradiction.
    + destruct H as (_ & _ & _ & _ & _ & H & _). contradiction.
    + destruct H as (_ & _ & _ & _ & _ & H & _). contradiction.
    + destruct H as (_ & _ & _ & Hr & _ & _ & Hu & _ & ->).
      split; [exact Hr|]. right. exists e. split; [exact Hu|reflexivity].
Qed.

(** C6: once the interrupt branch has been taken, the unmount has been
    called exactly once, on the mount point, in every state that follows,
    whatever the serve task does meanwhile; [Mount] is then inside that
    call, or done after the call has returned. *)
Theorem interrupt_unmounts_once sched st :
  run init sched = Some st ->
  interrupts (trace st) <> [] ->
  unmount_calls (trace st) = [mountpoint]
  /\ ((ctl st = Unmounting /\ unmount_rets (trace st) = [])
      \/ (exists ue, ctl st = Done (Wrap ue tag_umount)
                     /\ unmount_rets (trace st) = [ue])).
Proof.
  intros Hrun Hint. apply reachable_inv in Hrun as [Hc _].
  unfold ctl_inv in Hc. destruct (ctl st) as [| | | |r] eqn:Ec.
  - destruct Hc as (_ & _ & _ & _ & H & _). contradiction.
  - destruct Hc as (_ & _ & _ & _ & H & _). contradiction.
  - destruct Hc as (_ & _ & _ & _ & H & _). contradiction.
  - destruct Hc as (_ & _ & _ & _ & _ & Hcall & Hret & _).
    split; [exact Hcall|]. left. split; [reflexivity|exact Hret].
  - destruct Hc as [(e & H)|[(e & H)|[(e & H)|(e & H)]]].
    + destruct H as (_ & _ & _ & _ & H & _). contradiction.
    + destruct H as (_ & _ & _ & _ & H & _). contradiction.
    + destruct H as (_ & _ & _ & _ & H & _). contradiction.
    + destruct H as (_ & _ & _ & _ & _ & Hcall & Hret & _ & ->).
      split; [exact Hcall|]. right. exists e.
      split; [reflexivity|exact Hret].
Qed.

(** C10: when the interrupt branch has been taken and the unmount has
    returned [nil], [Mount] has returned [nil]; it has never received from
    the result channel, so whatever the serve task has sent is still in
    it. *)
Theorem interrupt_discards_serve_result sched st :
  run init sched = Some st ->
  interrupts (trace st) <> [] ->
  unmount_rets (trace st) = [None] ->
  ctl st = Done None
  /\ recvs (trace st) = []
  /\ errChan st = sends (trace st).
Proof.
  intros Hrun Hint Hret.
  destruct (after_interrupt sched st Hrun Hint) as [Hd Hr].
  apply reachable_inv in Hrun as [_ [Hfifo _]].
  rewrite Hr in Hfifo. simpl in Hfifo.
  destruct Hd as [[_ Hnone]|(ue & Hd & Hue)].
  - rewrite Hnone in Hret. discriminate.
  - rewrite Hue in Hret. injection Hret as ->.
    repeat split; assumption.
Qed.

(** ** Mount failures and the serve task *)


(** C3, as the code has it: [Mount] returns [nil] exactly on clean
    shutdown, the mount established and the wait loop left without an
    error; every other result carries the text "failed to mount FUSE fs"
    when the mount was not established, and "failed to umount FUSE fs"
    when the wait loop was left with an error. *)
Theorem Mount_result sched st r :
  run init sched = Some st ->
  ctl st = Done r ->
  (r = None <-> clean_shutdown (trace st))
  /\ (forall m, r = Some m ->
        (exists e, m = (tag_mount ++ ": " ++ e)%string
                   /\ ~ established (trace st)
                   /\ (fuse_mounts (trace st) = [Some e]
                       \/ readies (trace st) = [Some e]))
        \/ (exists e, m = (tag_umount ++ ": " ++ e)%string
                      /\ established (trace st)
                      /\ left_loop_with (Some e) (trace st))).
Proof.
  intros Hrun Hd. apply reachable_inv in Hrun as [Hc _].
  unfold ctl_inv in Hc. rewrite Hd in Hc.
  unfold clean_shutdown, established, left_loop_with.
  destruct Hc as [(e & Hm & _ & Hy & Hr & _ & _ & Hu & _ & ->)
                 |[(e & Hm & _ & Hy & Hr & _ & _ & Hu & _ & ->)
                 |[(e & Hm & _ & Hy & Hr & _ & _ & Hu & _ & ->)
                  |(e & Hm & _ & Hy & Hr & _ & _ & Hu & _ & ->)]]];
    rewrite Hm, Hy, Hr, Hu.
  - split.
    + split; [discriminate|]. intros [[H _] _]. discriminate H.
    + intros m [= <-]. left. exists e. split; [reflexivity|].
      split; [|left; reflexivity]. intros [H _]. discriminate H.
  - split.
    + split; [discriminate|]. intros [[_ H] _]. discriminate H.
    + intros m [= <-]. left. exists e. split; [reflexivity|].
      split; [|right; reflexivity]. intros [_ H]. discriminate H.
  - destruct e as [e|]; simpl; split.
    + split; [discriminate|]. intros [_ [[H _]|[H _]]]; discriminate H.
    + intros m [= <-]. right. exists e. split; [reflexivity|].
      split; [split; reflexivity|]. left. split; reflexivity.
    + split; [|reflexivity]. intros _.
      split; [split; reflexivity|]. left. split; reflexivity.
    + intros m H. discriminate H.
  - destruct e as [e|]; simpl; split.
    + split; [discriminate|]. intros [_ [[H _]|[_ H]]]; discriminate H.
    + intros m [= <-]. right. exists e. split; [reflexivity|].
      split; [split; reflexivity|]. right. split; reflexivity.
    + split; [|reflexivity]. intros _.
      split; [split; reflexivity|]. right. split; reflexivity.
    + intros m H. discriminate H.
Qed.

(** ** The serve task *)



(** ** Cache clears *)

Lemma same_but_trace_refl st : same_but_trace st st.
Proof. unfold same_but_trace. repeat split; reflexivity. Qed.

(** A step and its healed twin keep two states alike. *)
Lemma step_heal a b s a' :
  same_but_trace a b ->
  step a s = Some a' ->
  exists b', step b (heal s) = Some b' /\ same_but_trace a' b'.
Proof.
  intros Hsame Hs.
  destruct a as [c t e ec si sh n tr], b as [c2 t2 e2 ec2 si2 sh2 n2 tr2].
  unfold same_but_trace in *. simpl in Hsame.
  destruct Hsame as (<- & <- & <- & <- & <- & <- & <-).
  destruct s as [me|me|se|ce| |sg| | |re|ue]; simpl in *.
  - unfold mount in *; simpl in *. destruct c; try discriminate.
    destruct (mountOptions _ _) as [o w].
    destruct me; injection Hs as <-; eexists; split; try reflexivity;
      simpl; repeat split; reflexivity.
  - unfold mount in *; simpl in *. destruct c; try discriminate.
    destruct me; injection Hs as <-; eexists; split; try reflexivity;
      simpl; repeat split; reflexivity.
  - unfold serve_task in *; simpl in *. destruct t; try discriminate.
    injection Hs as <-; eexists; split; try reflexivity;
      simpl; repeat split; reflexivity.
  - unfold serve_task in *; simpl in *. destruct t; try discriminate.
    injection Hs as <-; eexists; split; try reflexivity;
      simpl; repeat split; reflexivity.
  - unfold serve_task in *; simpl in *. destruct t; try discriminate.
    destruct (send errChan_cap ec err0); try discriminate.
    injection Hs as <-; eexists; split; try reflexivity;
      simpl; repeat split; reflexivity.
  - unfold deliver in *; simpl in *. destruct n; try discriminate.
    destruct sg; injection Hs as <-; eexists; split; try reflexivity;
      simpl; repeat split; reflexivity.
  - unfold waitloop in *; simpl in *. destruct c; try discriminate.
    destruct ec as [|v ec]; simpl in *; try discriminate.
    unfold Mount_return in *; simpl in *.
    destruct v; injection Hs as <-; eexists; split; try reflexivity;
      simpl; repeat split; reflexivity.
  - unfold waitloop in *; simpl in *. destruct c; try discriminate.
    destruct si as [|v si]; simpl in *; try discriminate.
    injection Hs as <-; eexists; split; try reflexivity;
      simpl; repeat split; reflexivity.
  - unfold waitloop in *; simpl in *. destruct c; try discriminate.
    destruct sh as [|v sh]; simpl in *; try discriminate.
    destruct re; injection Hs as <-; eexists; split; try reflexivity;
      simpl; repeat split; reflexivity.
  - unfold waitloop in *; simpl in *. destruct c; try discriminate.
    unfold Mount_return in *; simpl in *.
    destruct ue; injection Hs as <-; eexists; split; try reflexivity;
      simpl; repeat split; reflexivity.
Qed.

Lemma run_heal sched : forall a b a',
  same_but_trace a b ->
  run a sched = Some a' ->
  exists b', run b (map heal sched) = Some b' /\ same_but_trace a' b'.
Proof.
  induction sched as [|s sched IH]; simpl; intros a b a' Hsame Hrun.
  - injection Hrun as <-. exists b. split; [reflexivity|exact Hsame].
  - destruct (step a s) as [a1|] eqn:Hs; [|discriminate].
    destruct (step_heal a b s a1 Hsame Hs) as (b1 & Hb & Hsame1).
    rewrite Hb. eapply IH; eassumption.
Qed.

(** A cache clear whose root lookup fails. *)
Lemma hangup_root_error st e :
  ctl st = Serving ->
  sigHup st <> [] ->
  exists st', step st (SelectSigHup (Some e)) = Some st'
    /\ ctl st' = Serving
    /\ err st' = err st
    /\ task st' = task st
    /\ errChan st' = errChan st
    /\ unmount_calls (trace st') = unmount_calls (trace st)
    /\ forget_alls (trace st') = forget_alls (trace st)
    /\ logged (trace st') =
         logged (trace st) ++ [Logf LError "Error reading root: %v" [e]].
Proof.
  intros Hc Hpending. destruct st as [c t er ec si sh n tr]. simpl in *.
  subst c. destruct sh as [|sg sh]; [contradiction|].
  unfold waitloop. simpl. eexists. split; [reflexivity|]. simpl.
  unfold logged. split_trace. rewrite ?app_nil_r.
  repeat split; reflexivity.
Qed.

(** C5: a cache clear whose root lookup fails leaves [Mount] in the wait
    loop with its [err] still [nil]: no unmount is called, [ForgetAll] is
    not called, the error is logged.  And the outcome of a whole run does
    not depend on such errors: the run in which every root lookup
    succeeds ends in the same state, the same result included. *)
Theorem cache_clear_root_error_ignored sched st :
  run init sched = Some st ->
  (exists st2, run init (map heal sched) = Some st2 /\ same_but_trace st st2)
  /\ (forall e,
        ctl st = Serving ->
        sigHup st <> [] ->
        exists st', step st (SelectSigHup (Some e)) = Some st'
          /\ ctl st' = Serving
          /\ err st' = None
          /\ unmount_calls (trace st') = []
          /\ forget_alls (trace st') = forget_alls (trace st)
          /\ logged (trace st') =
               logged (trace st)
               ++ [Logf LError "Error reading root: %v" [e]]).
Proof.
  intros Hrun. split.
  - exact (run_heal sched init init st (same_but_trace_refl init) Hrun).
  - intros e Hc Hpending.
    destruct (hangup_root_error st e Hc Hpending)
      as (st' & Hs & Hc' & He & _ & _ & Hu & Hf & Hl).
    apply reachable_inv in Hrun as [Hinv _].
    unfold ctl_inv in Hinv. rewrite Hc in Hinv.
    destruct Hinv as (_ & _ & _ & _ & _ & Hcalls & _ & _ & Herr & _).
    exists st'. rewrite He, Hu, Herr, Hcalls.
    repeat split; assumption.
Qed.

(** One hang-up delivered to an idle wait loop and then taken by it. *)
Lemma hangup_round st r :
  ctl st = Serving ->
  notifying st = true ->
  sigHup st = [] ->
  exists st', run st [Deliver SIGHUP; SelectSigHup r] = Some st'
    /\ ctl st' = Serving /\ notifying st' = true /\ sigHup st' = []
    /\ hangups (trace st') = hangups (trace st) ++ [SIGHUP]
    /\ forget_alls (trace st') =
         forget_alls (trace st) ++ (if is_nil r then [tt] else [])
    /\ unmount_calls (trace st') = unmount_calls (trace st).
Proof.
  intros Hc Hn Hh. destruct st as [c t er ec si sh n tr]. simpl in *.
  subst c n sh. unfold deliver, waitloop. simpl.
  destruct r as [e|]; eexists; (split; [reflexivity|]); simpl;
    split_trace; rewrite ?app_nil_r; repeat split; reflexivity.
Qed.

Lemma hangup_rounds_run roots : forall st,
  ctl st = Serving ->
  notifying st = true ->
  sigHup st = [] ->
  exists st', run st (hangup_rounds roots) = Some st'
    /\ ctl st' = Serving /\ notifying st' = true /\ sigHup st' = []
    /\ List.length (hangups (trace st')) =
         List.length (hangups (trace st)) + List.length roots
    /\ List.length (forget_alls (trace st')) =
         List.length (forget_alls (trace st))
         + List.length (filter is_nil roots)
    /\ unmount_calls (trace st') = unmount_calls (trace st).
Proof.
  induction roots as [|r roots IH]; intros st Hc Hn Hh.
  - exists st. simpl. rewrite !Nat.add_0_r. repeat split; assumption.
  - destruct (hangup_round st r Hc Hn Hh)
      as (st1 & Hrun1 & Hc1 & Hn1 & Hh1 & Hhup1 & Hfg1 & Hu1).
    destruct (IH st1 Hc1 Hn1 Hh1)
      as (st' & Hrun' & Hc' & Hn' & Hh' & Hhup' & Hfg' & Hu').
    exists st'.
    change (hangup_rounds (r :: roots))
      with ([Deliver SIGHUP; SelectSigHup r] ++ hangup_rounds roots).
    rewrite run_app, Hrun1.
    split; [exact Hrun'|]. split; [exact Hc'|]. split; [exact Hn'|].
    split; [exact Hh'|].
    rewrite Hhup', Hfg', Hu', Hhup1, Hfg1, Hu1, !length_app. simpl.
    destruct (is_nil r); simpl; repeat split; lia.
Qed.

Lemma filter_is_nil_repeat n : filter is_nil (repeat None n) = repeat None n.
Proof. induction n as [|n IH]; simpl; [reflexivity|]. rewrite IH. reflexivity. Qed.

(** C8, as the code has it: the two signal channels have capacity one, and
    a hang-up that reaches the idle wait loop is kept pending until the
    loop takes it; [n] hang-ups handled this way one after the other call
    [ForgetAll] once for every root lookup that succeeds, [n] times when
    all succeed, call the unmount not at all, and leave [Mount] in the
    wait loop. *)
Theorem hangups_forget_all sched st roots :
  run init sched = Some st ->
  ctl st = Serving ->
  sigHup st = [] ->
  1 <= sigHup_cap /\ 1 <= sigInt_cap
  /\ (exists st1, step st (Deliver SIGHUP) = Some st1
                  /\ sigHup st1 = [SIGHUP] /\ ctl st1 = Serving)
  /\ (exists st', run st (hangup_rounds roots) = Some st'
        /\ ctl st' = Serving
        /\ List.length (hangups (trace st')) =
             List.length (hangups (trace st)) + List.length roots
        /\ List.length (forget_alls (trace st')) =
             List.length (forget_alls (trace st))
             + List.length (filter is_nil roots)
        /\ (roots = repeat None (List.length roots) ->
            List.length (forget_alls (trace st')) =
              List.length (forget_alls (trace st)) + List.length roots)
        /\ unmount_calls (trace st') = []).
Proof.
  intros Hrun Hc Hh.
  apply reachable_inv in Hrun as [Hinv _].
  unfold ctl_inv in Hinv. rewrite Hc in Hinv.
  destruct Hinv as (_ & _ & _ & _ & _ & Hcalls & _ & _ & _ & Hn).
  split; [unfold sigHup_cap; lia|]. split; [unfold sigInt_cap; lia|].
  split.
  - simpl. unfold deliver. rewrite Hn, Hh. eexists.
    split; [reflexivity|]. simpl. split; [reflexivity|exact Hc].
  - destruct (hangup_rounds_run roots st Hc Hn Hh)
      as (st' & Hrun' & Hc' & _ & _ & Hhup & Hfg & Hu).
    exists st'. split; [exact Hrun'|]. split; [exact Hc'|].
    split; [exact Hhup|]. split; [exact Hfg|]. split.
    + intros Hall. rewrite Hfg. rewrite Hall at 1.
      rewrite filter_is_nil_repeat, repeat_length. reflexivity.
    + rewrite Hu. exact Hcalls.
Qed.

End Program.

End Lifecycle.

(** ** The option builder: what it returns *)

Module OptionsFacts.
Import Options.

Lemma mountOptions_options cfg device :
  fst (mountOptions cfg device) = fixed_tokens cfg device ++ implied_tokens cfg.
Proof.
  unfold mountOptions, fixed_tokens, implied_tokens, flag_table. simpl.
  destruct (AllowNonEmpty cfg), (AllowOther_ cfg), (AllowRoot_ cfg),
    (DefaultPermissions_ cfg), (OptReadOnly cfg), (WritebackCache_ cfg);
    reflexivity.
Qed.

Lemma mountOptions_log cfg device :
  snd (mountOptions cfg device) =
  match ExtraOptions cfg with
  | [] => []
  | _ :: _ => [warn_option; warn_fuse_flag]
  end.
Proof.
  unfold mountOptions. simpl. destruct (ExtraOptions cfg); reflexivity.
Qed.

Lemma implied_token_iff cfg flag tok :
  In (flag, tok) flag_table ->
  (In tok (implied_tokens cfg) <-> flag cfg = true).
Proof.
  unfold implied_tokens, flag_table. simpl.
  intros Hin.
  repeat (destruct Hin as [Hin|Hin]; [injection Hin as <- <-|]);
    try contradiction;
    destruct (AllowNonEmpty cfg), (AllowOther_ cfg), (AllowRoot_ cfg),
      (DefaultPermissions_ cfg), (OptReadOnly cfg), (WritebackCache_ cfg);
    simpl; split; intros H; try reflexivity; try discriminate;
    repeat (destruct H as [H|H]; try discriminate); auto 10.
Qed.

Lemma flag_token_not_fixed cfg device flag tok :
  In (flag, tok) flag_table -> ~ In tok (fixed_tokens cfg device).
Proof.
  unfold flag_table, fixed_tokens. simpl. intros Hin Hfix.
  repeat (destruct Hin as [Hin|Hin]; [injection Hin as <- <-|]);
    try contradiction;
    repeat (destruct Hfix as [Hfix|Hfix]; try discriminate); contradiction.
Qed.

(** C7, as the code has it: whatever the configuration, [mountOptions]
    returns the six tokens it always emits (read-ahead, subtype, the two
    names of the device, the two Apple tokens) followed by exactly the
    tokens of the boolean options that are true, in the fixed order of
    the table; the extra options have no part in the result, and when
    there are some the only effect is the two warnings in the log. *)
Theorem mountOptions_tokens cfg device :
  fst (mountOptions cfg device) = fixed_tokens cfg device ++ implied_tokens cfg
  /\ (forall flag tok, In (flag, tok) flag_table ->
        (In tok (fst (mountOptions cfg device)) <-> flag cfg = true))
  /\ (forall extra,
        fst (mountOptions (with_extra cfg extra) device)
        = fst (mountOptions cfg device))
  /\ (forall extra,
        snd (mountOptions (with_extra cfg extra) device)
        = match extra with
          | [] => []
          | _ :: _ => [warn_option; warn_fuse_flag]
          end).
Proof.
  split; [apply mountOptions_options|]. split; [|split].
  - intros flag tok Hin. rewrite mountOptions_options, in_app_iff.
    pose proof (flag_token_not_fixed cfg device flag tok Hin) as Hfix.
    pose proof (implied_token_iff cfg flag tok Hin) as Himp.
    tauto.
  - intros extra. rewrite !mountOptions_options. reflexivity.
  - intros extra. rewrite mountOptions_log. reflexivity.
Qed.

(** C7 as stated fails: with every boolean option off no token is implied
    by a true-valued option, and [mountOptions] still returns six. *)
Lemma mountOptions_more_than_implied :
  implied_tokens all_off = []
  /\ fst (mountOptions all_off "remote:bucket")
     = [ MaxReadahead 131072; Subtype "rclone";
         FSName "remote:bucket"; VolumeName "remote:bucket";
         NoAppleDouble; NoAppleXattr ]
  /\ fst (mountOptions all_off "remote:bucket") <> implied_tokens all_off.
Proof. repeat split. discriminate. Qed.

(** C9: the warning about [--fuse-flag] is logged exactly when
    [ExtraOptions] is not empty, and exactly when the warning about
    [-o/--option] is: both branches test the same condition. *)
Theorem fuse_flag_warning_iff cfg device :
  (In warn_fuse_flag (snd (mountOptions cfg device))
   <-> ExtraOptions cfg <> [])
  /\ (In warn_option (snd (mountOptions cfg device))
      <-> In warn_fuse_flag (snd (mountOptions cfg device))).
Proof.
  rewrite mountOptions_log. destruct (ExtraOptions cfg) as [|x extra]; simpl.
  - split; split; tauto.
  - split; split; intros _; try discriminate; auto.
Qed.

End OptionsFacts.

(** ** Runs of [Mount] on a concrete remote *)

Module Scenarios.
Import Options Lifecycle.

Definition remote : Fs := {| Name := "remote"; Root := "bucket" |}.
Definition mnt : string := "/mnt/x".

Notation run_from := (run all_off remote mnt).

(** The state a schedule ends in ([init] when it cannot be run). *)
Definition final (sched : list Step) : State :=
  match run_from init sched with
  | Some st => st
  | None => init
  end.

(** The serve loop fails and its result is in the channel when the
    interrupt is taken; the unmount succeeds. *)
Definition interrupted_after_serve_error : list Step :=
  [ FuseMountReturns None; ReadyCloses None;
    ServeReturns (Some "EIO"); CloseReturns None; TaskSends;
    Deliver SIGINT; SelectSigInt; UnmountReturns None ].


(** The serve result arrives while the unmount is running; the unmount
    fails. *)
Definition serve_ends_during_unmount : list Step :=
  [ FuseMountReturns None; ReadyCloses None; Deliver SIGTERM; SelectSigInt;
    ServeReturns None; CloseReturns (Some "close failed"); TaskSends;
    UnmountReturns (Some "device busy") ].


(** [fuse.Mount] succeeds, the readiness signal carries a mount error. *)
Definition mount_error_at_ready : list Step :=
  [ FuseMountReturns None; ReadyCloses (Some "already mounted") ].

(** The serve loop fails on its own. *)
Definition serve_error : list Step :=
  [ FuseMountReturns None; ReadyCloses None;
    ServeReturns (Some "EIO"); CloseReturns None; TaskSends;
    SelectErrChan ].

(** Mounted and serving, nothing else yet. *)
Definition serving : list Step :=
  [ FuseMountReturns None; ReadyCloses None ].

(** One hang-up, pending, whose root lookup is about to fail. *)
Definition hangup_pending : list Step :=
  [ FuseMountReturns None; ReadyCloses None; Deliver SIGHUP ].

(** One hang-up whose root lookup fails. *)
Definition hangup_root_fails : list Step :=
  [ FuseMountReturns None; ReadyCloses None;
    Deliver SIGHUP; SelectSigHup (Some "EIO") ].

(** C1 as stated fails: the serve task has delivered the error "EIO",
    the interrupt branch is taken, the unmount returns [nil]; [Mount]
    returns [nil], not the serve error. *)
Lemma unmount_nil_hides_serve_error :
  exists st,
    run_from init interrupted_after_serve_error = Some st
    /\ unmount_calls (trace st) = [mnt]
    /\ unmount_rets (trace st) = [None]
    /\ sends (trace st) = [Some "EIO"]
    /\ ctl st = Done None
    /\ ctl st <> Done (reported_after_interrupt None (Some "EIO")).
Proof.
  exists (final interrupted_after_serve_error). vm_compute.
  repeat split. discriminate.
Qed.

Lemma result_after_unmount_witness :
  recvs (trace (final serve_ends_during_unmount)) = []
  /\ exists ue,
       unmount_rets (trace (final serve_ends_during_unmount)) = [ue]
       /\ ctl (final serve_ends_during_unmount) = Done (Wrap ue tag_umount).
Proof.
  destruct (result_after_unmount all_off remote mnt
              serve_ends_during_unmount (final serve_ends_during_unmount))
    as [Hr [[Hc _]|Hd]].
  - vm_compute. reflexivity.
  - vm_compute. discriminate.
  - discriminate Hc.
  - split; [exact Hr|exact Hd].
Defined.

Lemma interrupt_unmounts_once_witness :
  unmount_calls (trace (final serve_ends_during_unmount)) = [mnt]
  /\ sends (trace (final serve_ends_during_unmount))
     = [Some "close failed"].
Proof.
  split.
  - apply (interrupt_unmounts_once all_off remote mnt
             serve_ends_during_unmount (final serve_ends_during_unmount)).
    + vm_compute. reflexivity.
    + vm_compute. discriminate.
  - vm_compute. reflexivity.
Defined.

Lemma interrupt_discards_serve_result_witness :
  ctl (final interrupted_after_serve_error) = Done None
  /\ recvs (trace (final interrupted_after_serve_error)) = []
  /\ errChan (final interrupted_after_serve_error)
     = sends (trace (final interrupted_after_serve_error)).
Proof.
  apply (interrupt_discards_serve_result all_off remote mnt
           interrupted_after_serve_error).
  - vm_compute. reflexivity.
  - vm_compute. discriminate.
  - vm_compute. reflexivity.
Defined.



(** C3 as stated fails: an error after the mount was established comes
    back as "failed to umount FUSE fs: ...", which starts with neither of
    the two tags of the specification. *)
Lemma umount_tag_is_not_unmount :
  exists st m,
    run_from init serve_error = Some st
    /\ ctl st = Done (Some m)
    /\ m = "failed to umount FUSE fs: EIO"
    /\ String.prefix spec_tag_mount m = false
    /\ String.prefix spec_tag_unmount m = false.
Proof.
  exists (final serve_error), "failed to umount FUSE fs: EIO".
  vm_compute. repeat split.
Qed.

Lemma Mount_result_witness :
  ~ clean_shutdown (trace (final serve_error))
  /\ established (trace (final serve_error))
  /\ left_loop_with (Some "EIO") (trace (final serve_error)).
Proof.
  assert (Hrun : run_from init serve_error = Some (final serve_error))
    by (vm_compute; reflexivity).
  assert (Hdone : ctl (final serve_error)
                  = Done (Some "failed to umount FUSE fs: EIO"))
    by (vm_compute; reflexivity).
  destruct (Mount_result all_off remote mnt serve_error (final serve_error)
              (Some "failed to umount FUSE fs: EIO") Hrun Hdone)
    as [Hnil Hsome].
  split.
  - intros Hclean. apply Hnil in Hclean. discriminate Hclean.
  - destruct (Hsome _ eq_refl) as [(e & Hm & _)|(e & Hm & He & Hl)].
    + discriminate Hm.
    + injection Hm as <-. split; assumption.
Defined.


Lemma cache_clear_root_error_ignored_witness :
  (exists st2,
     run_from init (map heal hangup_root_fails) = Some st2
     /\ same_but_trace (final hangup_root_fails) st2)
  /\ exists st',
       step all_off remote mnt (final hangup_pending)
         (SelectSigHup (Some "EIO")) = Some st'
       /\ ctl st' = Serving /\ err st' = None
       /\ unmount_calls (trace st') = [].
Proof.
  split.
  - apply (cache_clear_root_error_ignored all_off remote mnt
             hangup_root_fails (final hangup_root_fails)).
    vm_compute. reflexivity.
  - assert (Hrun : run_from init hangup_pending = Some (final hangup_pending))
      by (vm_compute; reflexivity).
    destruct (cache_clear_root_error_ignored all_off remote mnt
                hangup_pending (final hangup_pending) Hrun) as [_ H].
    destruct (H "EIO") as (st' & Hs & Hc & He & Hu & _).
    + vm_compute. reflexivity.
    + vm_compute. discriminate.
    + exists st'. repeat split; assumption.
Defined.

(** Three hang-ups in a row while the wait loop is busy: the buffer of
    [sigHup] holds one, the relay drops the other two. *)
Lemma hangup_burst_keeps_one :
  exists st,
    run_from init (serving ++ [Deliver SIGHUP; Deliver SIGHUP; Deliver SIGHUP])
    = Some st
    /\ sigHup st = [SIGHUP].
Proof.
  exists (final (serving ++ [Deliver SIGHUP; Deliver SIGHUP; Deliver SIGHUP])).
  vm_compute. split; reflexivity.
Qed.

(** C8 as stated fails: one hang-up is delivered and taken while serving,
    its root lookup fails, and [ForgetAll] is not called. *)
Lemma hangup_without_forget_all :
  exists st,
    run_from init hangup_root_fails = Some st
    /\ ctl st = Serving
    /\ hangups (trace st) = [SIGHUP]
    /\ forget_alls (trace st) = []
    /\ List.length (forget_alls (trace st))
       <> List.length (hangups (trace st)).
Proof.
  exists (final hangup_root_fails). vm_compute. repeat split. discriminate.
Qed.

Lemma hangups_forget_all_witness :
  exists st',
    run_from (final serving) (hangup_rounds [None; Some "EIO"; None])
    = Some st'
    /\ ctl st' = Serving
    /\ List.length (forget_alls (trace st')) = 2
    /\ unmount_calls (trace st') = [].
Proof.
  destruct (hangups_forget_all all_off remote mnt serving (final serving)
              [None; Some "EIO"; None])
    as (_ & _ & _ & st' & Hrun & Hc & _ & Hf & _ & Hu).
  - vm_compute. reflexivity.
  - vm_compute. reflexivity.
  - vm_compute. reflexivity.
  - exists st'. repeat split; assumption.
Defined.

End Scenarios.

(** ** The option builder: further properties *)

Module OptionsMore.
Import Options OptionsFacts.

(** The number of boolean options of the table that are on. *)
Definition flags_on (cfg : Config) : nat :=
  List.length (filter (fun p => fst p cfg) flag_table).

(** X1: the read-ahead option carries the configured size converted to
    [uint32]: it lies between 0 and 2^32 - 1, it differs from the
    configured size by a multiple of 2^32, and it is the configured size
    itself when that one fits in 32 bits. *)
Theorem mountOptions_read_ahead cfg device n :
  In (MaxReadahead n) (fst (mountOptions cfg device)) ->
  (0 <= n < 2 ^ 32)%Z
  /\ (exists k, MaxReadAhead cfg = (k * 2 ^ 32 + n)%Z)
  /\ ((0 <= MaxReadAhead cfg < 2 ^ 32)%Z -> n = MaxReadAhead cfg).
Proof.
  rewrite mountOptions_options, in_app_iff. intros [Hfix|Himp].
  - unfold fixed_tokens in Hfix. simpl in Hfix.
    destruct Hfix as [Hn|Hfix];
      [|repeat (destruct Hfix as [Hfix|Hfix]; try discriminate);
        contradiction].
    injection Hn as <-. unfold uint32. split; [|split].
    + apply Z.mod_pos_bound. lia.
    + exists (MaxReadAhead cfg / 2 ^ 32)%Z.
      rewrite Z.mul_comm. apply Z.div_mod. lia.
    + intros Hsmall. apply Z.mod_small. exact Hsmall.
  - exfalso. unfold implied_tokens in Himp. apply in_map_iff in Himp.
    destruct Himp as ([flag tok] & Htok & Hin). simpl in Htok. subst tok.
    apply filter_In in Hin. destruct Hin as [Hin _].
    unfold flag_table in Hin. simpl in Hin.
    repeat (destruct Hin as [Hin|Hin]; try discriminate). contradiction.
Qed.

(** X2: no option is returned twice, and the number of options is six plus
    the number of boolean options that are on, never more than twelve. *)
Theorem mountOptions_no_duplicates cfg device :
  NoDup (fst (mountOptions cfg device))
  /\ List.length (fst (mountOptions cfg device)) = 6 + flags_on cfg
  /\ flags_on cfg <= 6.
Proof.
  rewrite mountOptions_options.
  unfold fixed_tokens, implied_tokens, flags_on, flag_table. simpl.
  destruct (AllowNonEmpty cfg), (AllowOther_ cfg), (AllowRoot_ cfg),
    (DefaultPermissions_ cfg), (OptReadOnly cfg), (WritebackCache_ cfg);
    simpl; (split; [|split; [reflexivity|lia]]);
    repeat (constructor;
            [simpl; intros H;
             repeat (destruct H as [H|H]; try discriminate); exact H|]);
    constructor.
Qed.

End OptionsMore.

(** ** The mount lifecycle: calls, signals and log lines *)

Module Conduct.
Import Options Lifecycle.

Definition fuse_calls : list Action -> list (string * list MountOption) :=
  pick (fun a => match a with AFuseMount m o _ => Some (m, o) | _ => None end).
Definition debug_sets : list Action -> list unit :=
  pick (fun a => match a with ASetDebug => Some tt | _ => None end).
Definition root_errors : list Action -> list string :=
  pick (fun a => match a with ARoot (Some e) => Some e | _ => None end).

(** [fs.Errorf(f, "Error reading root: %v", err)]. *)
Definition root_error_log (e : string) : LogEntry :=
  Logf LError "Error reading root: %v" [e].

(** The errors in a list of results. *)
Definition failures (l : list error) : list string :=
  flat_map (fun r => match r with Some e => [e] | None => [] end) l.

Definition not_hangup (s : Signal) : Prop := s <> SIGHUP.

Section Program.

Variable cfg : Config.
Variable f : Fs.
Variable mountpoint : string.

Abbreviation step := (step cfg f mountpoint).
Abbreviation run := (run cfg f mountpoint).

(** [f.Name() + ":" + f.Root()], the device [mount] names. *)
Definition device : string := (Name f ++ ":" ++ Root f)%string.

(** What [mount] logs before it calls [fuse.Mount]. *)
Definition mount_log : list LogEntry :=
  Logf LDebug "Mounting on %q" [mountpoint] :: snd (mountOptions cfg device).

(** The call of [fuse.Mount], the debug hook and the log. *)
Definition call_inv (st : State) : Prop :=
  let tr := trace st in
  (ctl st = Start ->
     fuse_calls tr = [] /\ debug_sets tr = [] /\ logged tr = []
     /\ root_errors tr = [])
  /\ (ctl st <> Start ->
        fuse_calls tr = [(mountpoint, fst (mountOptions cfg device))]
        /\ debug_sets tr = (if DebugFUSE cfg then [tt] else [])
        /\ logged tr = mount_log ++ map root_error_log (root_errors tr)).

(** The two signal channels and the cache clears. *)
Definition signal_inv (st : State) : Prop :=
  let tr := trace st in
  (ctl st = Start \/ ctl st = WaitReady -> notifying st = false)
  /\ (notifying st = false ->
        sigInt st = [] /\ sigHup st = [] /\ hangups tr = []
        /\ interrupts tr = [] /\ root_rets tr = [] /\ forget_alls tr = [])
  /\ (notifying st = true -> established tr)
  /\ Forall (eq SIGHUP) (sigHup st) /\ Forall not_hangup (sigInt st)
  /\ Forall (eq SIGHUP) (hangups tr) /\ Forall not_hangup (interrupts tr)
  /\ List.length (sigHup st) <= 1 /\ List.length (sigInt st) <= 1
  /\ List.length (root_rets tr) = List.length (hangups tr)
  /\ List.length (forget_alls tr) = List.length (filter is_nil (root_rets tr)).

Definition conduct_inv (st : State) : Prop :=
  inv mountpoint st /\ call_inv st /\ signal_inv st.

#[local] Opaque mountOptions.

Lemma logged_app a b : logged (a ++ b) = logged a ++ logged b.
Proof. apply pick_app. Qed.

Lemma logged_logs ls : logged (map ALog ls) = ls.
Proof.
  unfold logged, pick. induction ls as [|l ls IH]; simpl; [reflexivity|].
  rewrite IH. reflexivity.
Qed.

Lemma logged_cons a tr :
  logged (a :: tr) =
  match a with ALog l => l :: logged tr | _ => logged tr end.
Proof. destruct a; reflexivity. Qed.

Ltac projections :=
  unfold fuse_calls, debug_sets, root_errors, fuse_mounts, task_starts,
    serve_rets, close_rets, sends, readies, recvs, interrupts, hangups,
    unmount_calls, unmount_rets, root_rets, forget_alls in *.

Ltac extend_trace :=
  projections;
  repeat first
    [ rewrite logged_app
    | rewrite logged_logs
    | rewrite logged_cons
    | rewrite pick_app
    | rewrite pick_logs by reflexivity
    | rewrite app_nil_r
    | progress simpl ].

(** Takes [step st s = Some st'] apart: every test the step makes is
    decided. *)
Ltac step_cases Hs :=
  simpl in Hs;
  unfold Mount, mount, serve_task, deliver, waitloop, Mount_return,
    Mount_mounted in Hs;
  simpl in Hs;
  repeat match type of Hs with
         | context [mountOptions ?c ?d] =>
             destruct (mountOptions c d) as [? ?] eqn:?
         | context [match ?x with _ => _ end] =>
             first [is_var x; destruct x | destruct x eqn:?];
             simpl in Hs; try discriminate Hs
         end;
  try discriminate Hs; injection Hs as <-; simpl in *.


Lemma step_call_inv st s st' :
  call_inv st -> step st s = Some st' -> call_inv st'.
Proof.
  intros [Hstart Hlater] Hs.
  destruct st as [c t e ec si sh n tr].
  unfold call_inv in *. simpl in *.
  destruct s as [me|me|se|ce| |sg| | |re|ue].
  - (* fuse.Mount returns *)
    step_cases Hs.
    all: destruct (Hstart eq_refl) as (H1 & H2 & H3 & H4).
    all: split; [discriminate|intros _].
    all: unfold mount_log, device; extend_trace.
    all: match goal with H : mountOptions _ _ = _ |- _ => rewrite H end.
    all: rewrite H1, H2, H3, H4; simpl.
    all: rewrite ?app_nil_r; repeat split; reflexivity.
  - step_cases Hs.
    all: split; intros Hc; try discriminate Hc.
    all: destruct Hlater as (H1 & H2 & H3); [discriminate|].
    all: extend_trace; rewrite ?H1, ?H2, ?H3; repeat split; reflexivity.
  - step_cases Hs.
    split; intros Hc;
      [destruct (Hstart Hc) as (H1 & H2 & H3 & H4)
      |destruct (Hlater Hc) as (H1 & H2 & H3)];
      extend_trace; rewrite ?H1, ?H2, ?H3, ?H4; repeat split; reflexivity.
  - step_cases Hs.
    all: split; intros Hc;
      [destruct (Hstart Hc) as (H1 & H2 & H3 & H4)
      |destruct (Hlater Hc) as (H1 & H2 & H3)];
      extend_trace; rewrite ?H1, ?H2, ?H3, ?H4; repeat split; reflexivity.
  - step_cases Hs.
    all: split; intros Hc;
      [destruct (Hstart Hc) as (H1 & H2 & H3 & H4)
      |destruct (Hlater Hc) as (H1 & H2 & H3)];
      extend_trace; rewrite ?H1, ?H2, ?H3, ?H4; repeat split; reflexivity.
  - step_cases Hs.
    all: split; intros Hc;
      [destruct (Hstart Hc) as (H1 & H2 & H3 & H4)
      |destruct (Hlater Hc) as (H1 & H2 & H3)];
      repeat split; assumption.
  - step_cases Hs.
    all: split; intros Hc; try discriminate Hc.
    all: destruct Hlater as (H1 & H2 & H3); [discriminate|].
    all: extend_trace; rewrite ?H1, ?H2, ?H3; repeat split; reflexivity.
  - step_cases Hs.
    all: split; intros Hc; try discriminate Hc.
    all: destruct Hlater as (H1 & H2 & H3); [discriminate|].
    all: extend_trace; rewrite ?H1, ?H2, ?H3; repeat split; reflexivity.
  - step_cases Hs.
    all: split; intros Hc; try discriminate Hc.
    all: destruct Hlater as (H1 & H2 & H3); [discriminate|].
    all: extend_trace; rewrite ?H1, ?H2, ?H3, ?map_app, ?app_assoc;
      repeat split; reflexivity.
  - step_cases Hs.
    all: split; intros Hc; try discriminate Hc.
    all: destruct Hlater as (H1 & H2 & H3); [discriminate|].
    all: extend_trace; rewrite ?H1, ?H2, ?H3; repeat split; reflexivity.
Qed.

Lemma Forall_snoc {A} (P : A -> Prop) l x :
  Forall P l -> P x -> Forall P (l ++ [x]).
Proof. intros Hl Hx. apply Forall_app. split; [exact Hl|]. constructor; auto. Qed.

Lemma established_app tr new :
  fuse_mounts new = [] -> readies new = [] ->
  established tr -> established (tr ++ new).
Proof.
  unfold established, fuse_mounts, readies. intros H1 H2 [Hm Hr].
  rewrite !pick_app, H1, H2, Hm, Hr. split; reflexivity.
Qed.

Lemma notify_cases {A} cap (c : chan A) v :
  (notify cap c v = c ++ [v] /\ List.length c < cap)
  \/ (notify cap c v = c /\ cap <= List.length c).
Proof.
  unfold notify, send. destruct (Nat.ltb_spec (List.length c) cap); auto.
Qed.

Ltac signal_facts :=
  repeat match goal with
         | H : ?a = ?a \/ _ -> _ |- _ => specialize (H (or_introl eq_refl))
         | H : _ \/ ?a = ?a -> _ |- _ => specialize (H (or_intror eq_refl))
         | H : ?a = ?a -> _ |- _ => specialize (H eq_refl)
         | H : _ /\ _ |- _ => destruct H
         | H : exists _, _ |- _ => destruct H
         | H : (_ <? _) = true |- _ => apply Nat.ltb_lt in H
         | H : (_ <? _) = false |- _ => apply Nat.ltb_ge in H
         | H : Forall _ (_ :: _) |- _ => apply Forall_cons_iff in H
         | H : recv ?c = Some _ |- _ =>
             destruct c; simpl in H; [discriminate H|];
             injection H as ? ?; subst
         end.

Ltac signal_goal :=
  try match goal with
      | |- context [notify ?cap ?c ?v] =>
          destruct (notify_cases cap c v) as [[-> ?]|[-> ?]]
      end;
  rewrite ?length_app;
  repeat match goal with |- _ /\ _ => split end;
  intros; signal_facts; subst; signal_facts; subst;
  unfold sigInt_cap, sigHup_cap, errChan_cap in *; simpl in *;
  try discriminate;
  try match goal with
      | |- established (_ ++ [AReady None]) =>
          unfold established; split; extend_trace;
          repeat match goal with H : pick _ _ = _ |- _ => rewrite H end
      | |- established (_ ++ _) =>
          repeat (apply established_app; [reflexivity|reflexivity|])
      | |- Forall _ [] => constructor
      | |- Forall _ (_ ++ [_]) => apply Forall_snoc
      | |- Forall _ [_] => constructor; [|constructor]
      end;
  try solve [ assumption | reflexivity | lia | discriminate
            | unfold not_hangup; discriminate
            | intuition congruence ].

Lemma step_signal_inv st s st' :
  inv mountpoint st -> signal_inv st -> step st s = Some st' ->
  signal_inv st'.
Proof.
  intros [Hc _] Hsig Hs.
  destruct st as [c t e ec si sh n tr].
  unfold signal_inv, ctl_inv in *. simpl in *.
  destruct Hsig as (S1 & S2 & S3 & S4 & S5 & S6 & S7 & S8 & S9 & S10 & S11).
  destruct s as [me|me|se|ce| |sg| | |re|ue].
  all: step_cases Hs.
  all: extend_trace; rewrite ?length_app, ?filter_app; simpl.
  all: signal_goal.
Qed.

Lemma conduct_init : conduct_inv init.
Proof.
  split; [apply inv_init|]. split.
  - unfold call_inv. simpl. split; [intros _|intros H; contradiction].
    repeat split; reflexivity.
  - unfold signal_inv, established. simpl.
    repeat split; try reflexivity; try discriminate; try constructor; lia.
Qed.

Lemma conduct_step st s st' :
  conduct_inv st -> step st s = Some st' -> conduct_inv st'.
Proof.
  intros (Hinv & Hcall & Hsig) Hs. split; [|split].
  - eapply step_inv; eassumption.
  - eapply step_call_inv; eassumption.
  - eapply step_signal_inv; eassumption.
Qed.

Lemma conduct_run sched : forall st st',
  conduct_inv st -> run st sched = Some st' -> conduct_inv st'.
Proof.
  induction sched as [|s sched IH]; simpl; intros st st' Hinv Hrun.
  - injection Hrun as <-. exact Hinv.
  - destruct (step st s) as [st1|] eqn:Hs; [|discriminate].
    eapply IH; [|exact Hrun]. eapply conduct_step; eassumption.
Qed.

Lemma conduct_reachable sched st :
  run init sched = Some st -> conduct_inv st.
Proof. apply conduct_run, conduct_init. Qed.


(** ** What [Mount] calls, and when *)

(** X3: [fuse.Mount] is called at most once; once it has returned, it has
    been called exactly once, on the mount point, with the options
    [mountOptions] builds for the device [f.Name() + ":" + f.Root()],
    which both the [FSName] and the [VolumeName] option carry. *)
Theorem fuse_mount_called_once sched st :
  run init sched = Some st ->
  (ctl st = Start /\ fuse_calls (trace st) = [])
  \/ (ctl st <> Start
      /\ fuse_calls (trace st) = [(mountpoint, fst (mountOptions cfg device))]
      /\ In (FSName device) (fst (mountOptions cfg device))
      /\ In (VolumeName device) (fst (mountOptions cfg device))).
Proof.
  intros Hrun. apply conduct_reachable in Hrun as (_ & [Hstart Hlater] & _).
  destruct (ctl st) as [| | | |r] eqn:Ec.
  1: left; split; [reflexivity|apply Hstart; reflexivity].
  all: right; split; [discriminate|].
  all: destruct Hlater as (Hcalls & _); [discriminate|].
  all: split; [exact Hcalls|].
  all: rewrite OptionsFacts.mountOptions_options, !in_app_iff.
  all: unfold fixed_tokens; simpl; auto 10.
Qed.

(** X4: the debug hook of the FUSE library is installed exactly when
    [DebugFUSE] is set, once, and otherwise never. *)
Theorem fuse_debug_hook sched st :
  run init sched = Some st ->
  ctl st <> Start ->
  debug_sets (trace st) = (if DebugFUSE cfg then [tt] else []).
Proof.
  intros Hrun Hc. apply conduct_reachable in Hrun as (_ & [_ Hlater] & _).
  apply Hlater. exact Hc.
Qed.


(** X6: when [Mount] has received the result of the serve task, it has
    returned the first non-nil of what [server.Serve] and [c.Close]
    returned, wrapped as a failure to umount; it has not called the
    unmount and has taken no interrupt, and the result channel is empty
    again. *)
Theorem serve_result_ends_Mount sched st :
  run init sched = Some st ->
  recvs (trace st) <> [] ->
  exists serveErr closeErr,
    serve_rets (trace st) = [serveErr]
    /\ close_rets (trace st) = [closeErr]
    /\ ctl st = Done (Wrap (first_non_nil [serveErr; closeErr]) tag_umount)
    /\ unmount_calls (trace st) = []
    /\ interrupts (trace st) = []
    /\ errChan st = [].
Proof.
  intros Hrun Hrecv. apply reachable_inv in Hrun as [Hc [Hfifo Ht]].
  assert (Hdone : exists e, recvs (trace st) = [e]
                            /\ ctl st = Done (Wrap e tag_umount)
                            /\ unmount_calls (trace st) = []
                            /\ interrupts (trace st) = []).
  { unfold ctl_inv in Hc. destruct (ctl st) as [| | | |r].
    1-4: destruct Hc as (_ & _ & _ & H & _); contradiction.
    destruct Hc as [(e & H)|[(e & H)|[(e & H)|(e & H)]]].
    1,2,4: destruct H as (_ & _ & _ & H & _); contradiction.
    destruct H as (_ & _ & _ & Hr & Hi & Hu & _ & _ & ->).
    exists e. repeat split; assumption. }
  destruct Hdone as (e & Hr & Hd & Hu & Hi).
  rewrite Hr in Hfifo. simpl in Hfifo.
  destruct (task st) as [| |se|v|].
  1-3: destruct Ht as (_ & _ & _ & Hs); rewrite Hs in Hfifo; discriminate.
  1: destruct Ht as (_ & Hs & _); rewrite Hs in Hfifo; discriminate.
  destruct Ht as (_ & se & ce & Hse & Hce & Hs).
  rewrite Hs in Hfifo. injection Hfifo as -> ->.
  exists se, ce. repeat split; assumption.
Qed.


(** X8: while [Mount] waits in its loop, an interrupt or a terminate
    signal always ends it: the signal is relayed (or one is pending
    already), the interrupt branch can be taken, the unmount is called on
    the mount point, and whatever it returns is the result, wrapped when
    it is an error. *)
Theorem interrupt_ends_Mount sched st sg ue :
  run init sched = Some st ->
  ctl st = Serving ->
  sg <> SIGHUP ->
  exists st',
    run st [Deliver sg; SelectSigInt; UnmountReturns ue] = Some st'
    /\ ctl st' = Done (Wrap ue tag_umount)
    /\ unmount_calls (trace st') = [mountpoint]
    /\ unmount_rets (trace st') = [ue].
Proof.
  intros Hrun Hserving Hsg. apply reachable_inv in Hrun as [Hc _].
  unfold ctl_inv in Hc. rewrite Hserving in Hc.
  destruct Hc as (_ & _ & _ & _ & _ & Hcalls & Hrets & _ & _ & Hn).
  destruct st as [c t e ec si sh n tr]. simpl in *. subst c n.
  unfold deliver. simpl.
  assert (Hpending : exists x rest, notify sigInt_cap si sg = x :: rest).
  { destruct (notify_cases sigInt_cap si sg) as [[-> Hlen]|[-> Hlen]].
    - destruct si as [|x si]; simpl.
      + exists sg, []. reflexivity.
      + exists x, (si ++ [sg]). reflexivity.
    - destruct si as [|x si]; simpl in Hlen.
      + unfold sigInt_cap in Hlen. lia.
      + exists x, si. reflexivity. }
  destruct Hpending as (x & rest & Hnotify).
  destruct sg; [| |contradiction].
  all: simpl; unfold waitloop; simpl; rewrite Hnotify; simpl.
  all: unfold Mount_return; simpl.
  all: destruct ue as [m|]; eexists; (split; [reflexivity|]); simpl.
  all: extend_trace; rewrite Hcalls, Hrets; repeat split; reflexivity.
Qed.

(** X9: the cache-clear branch is only ever taken for a hang-up and the
    interrupt branch only for an interrupt or a terminate signal; at most
    one signal of each kind is pending, and a pending one is in the
    channel of its kind. *)
Theorem signals_routed sched st :
  run init sched = Some st ->
  Forall (eq SIGHUP) (hangups (trace st))
  /\ Forall not_hangup (interrupts (trace st))
  /\ Forall (eq SIGHUP) (sigHup st)
  /\ Forall not_hangup (sigInt st)
  /\ List.length (sigHup st) <= 1
  /\ List.length (sigInt st) <= 1.
Proof.
  intros Hrun. apply conduct_reachable in Hrun as (_ & _ & Hsig).
  destruct Hsig as (_ & _ & _ & S4 & S5 & S6 & S7 & S8 & S9 & _).
  repeat split; assumption.
Qed.

(** X10: in every run, each cache clear taken looks the root up exactly
    once, and [ForgetAll] has been called exactly once for every lookup
    that succeeded. *)
Theorem cache_clears_accounted sched st :
  run init sched = Some st ->
  List.length (root_rets (trace st)) = List.length (hangups (trace st))
  /\ List.length (forget_alls (trace st))
     = List.length (filter is_nil (root_rets (trace st)))
  /\ List.length (forget_alls (trace st))
     + List.length (failures (root_rets (trace st)))
     = List.length (hangups (trace st)).
Proof.
  intros Hrun. apply conduct_reachable in Hrun as (_ & _ & Hsig).
  destruct Hsig as (_ & _ & _ & _ & _ & _ & _ & _ & _ & S10 & S11).
  split; [exact S10|]. split; [exact S11|].
  rewrite S11, <- S10. clear.
  induction (root_rets (trace st)) as [|[e|] l IH]; simpl; lia.
Qed.

(** X11: as long as the mount is not established, and for good when it
    failed, [Mount] relays no signal and touches neither the file system
    nor the mount: nothing is pending, no branch of the wait loop has been
    taken, no root lookup, no [ForgetAll], no unmount. *)
Theorem nothing_before_established sched st :
  run init sched = Some st ->
  ~ established (trace st) ->
  notifying st = false
  /\ sigInt st = [] /\ sigHup st = []
  /\ recvs (trace st) = [] /\ interrupts (trace st) = []
  /\ hangups (trace st) = [] /\ root_rets (trace st) = []
  /\ forget_alls (trace st) = [] /\ unmount_calls (trace st) = [].
Proof.
  intros Hrun Hnot.
  apply conduct_reachable in Hrun as ([Hc _] & _ & Hsig).
  destruct Hsig as (_ & S2 & S3 & _).
  destruct (notifying st) eqn:Hn.
  - exfalso. apply Hnot, S3. reflexivity.
  - destruct (S2 eq_refl) as (H1 & H2 & H3 & H4 & H5 & H6).
    assert (Hrest : recvs (trace st) = [] /\ unmount_calls (trace st) = []).
    { unfold ctl_inv, established in *. destruct (ctl st) as [| | | |r].
      1,2: destruct Hc as (_ & _ & _ & Hr & _ & Hu & _); split; assumption.
      1,2: exfalso; apply Hnot;
        destruct Hc as (Hm & _ & Hy & _); split; assumption.
      destruct Hc as [(e & H)|[(e & H)|[(e & H)|(e & H)]]].
      1,2: destruct H as (_ & _ & _ & Hr & _ & Hu & _); split; assumption.
      1,2: exfalso; apply Hnot;
        destruct H as (Hm & _ & Hy & _); split; assumption. }
    destruct Hrest as [Hr Hu]. repeat split; assumption.
Qed.

(** X12: the serve task calls [server.Serve] and [c.Close] at most once
    each, closes the connection only after the serve loop has returned,
    and sends its result only after the connection is closed. *)
Theorem serve_then_close_then_send sched st :
  run init sched = Some st ->
  List.length (serve_rets (trace st)) <= 1
  /\ List.length (close_rets (trace st)) <= 1
  /\ (close_rets (trace st) <> [] -> serve_rets (trace st) <> [])
  /\ (sends (trace st) <> [] -> close_rets (trace st) <> [])
  /\ (serve_rets (trace st) <> [] -> task_starts (trace st) = [tt]).
Proof.
  intros Hrun. apply reachable_inv in Hrun as [_ [_ Ht]].
  destruct (task st) as [| |se|v|].
  - destruct Ht as (H1 & H2 & H3 & H4). rewrite H2, H3, H4. simpl.
    repeat split; try lia; intros H; contradiction.
  - destruct Ht as (H1 & H2 & H3 & H4). rewrite H1, H2, H3, H4. simpl.
    repeat split; try lia; intros H; try contradiction.
  - destruct Ht as (H1 & H2 & H3 & H4). rewrite H1, H2, H3, H4. simpl.
    repeat split; try lia; intros H; try contradiction.
  - destruct Ht as (H1 & H4 & se & ce & H2 & H3 & _).
    rewrite H1, H2, H3, H4. simpl.
    repeat split; try lia; intros H; try contradiction; discriminate.
  - destruct Ht as (H1 & se & ce & H2 & H3 & H4).
    rewrite H1, H2, H3, H4. simpl.
    repeat split; try lia; intros H; try contradiction; discriminate.
Qed.

End Program.

End Conduct.

(** ** Further runs on the concrete remote *)

Module ConductScenarios.
Import Options Lifecycle Conduct Scenarios.

(** A read-ahead of 4 GiB and 5 bytes. *)
Definition huge_read_ahead : Config :=
  {| MaxReadAhead := 4294967301%Z;
     AllowNonEmpty := false;
     AllowOther_ := false;
     AllowRoot_ := false;
     DefaultPermissions_ := false;
     OptReadOnly := true;
     WritebackCache_ := false;
     ExtraOptions := [];
     DebugFUSE := false |}.

(** Debugging on, and one extra option given. *)
Definition debugging : Config :=
  {| MaxReadAhead := 131072%Z;
     AllowNonEmpty := false;
     AllowOther_ := true;
     AllowRoot_ := false;
     DefaultPermissions_ := false;
     OptReadOnly := false;
     WritebackCache_ := false;
     ExtraOptions := ["noatime"];
     DebugFUSE := true |}.

Definition final_with (cfg : Config) (sched : list Step) : State :=
  match run cfg remote mnt init sched with
  | Some st => st
  | None => init
  end.

(** Two cache clears, the second with a failing root lookup, then an
    interrupt that is still pending. *)
Definition two_hangups_then_interrupt : list Step :=
  serving ++ hangup_rounds [None; Some "EIO"] ++ [Deliver SIGTERM].

Lemma mountOptions_read_ahead_witness :
  (0 <= 5 < 2 ^ 32)%Z
  /\ (exists k, MaxReadAhead huge_read_ahead = (k * 2 ^ 32 + 5)%Z)
  /\ ((0 <= MaxReadAhead huge_read_ahead < 2 ^ 32)%Z
      -> 5%Z = MaxReadAhead huge_read_ahead).
Proof.
  apply (OptionsMore.mountOptions_read_ahead huge_read_ahead "remote:bucket").
  vm_compute. left. reflexivity.
Defined.

Lemma fuse_mount_called_once_witness :
  fuse_calls (trace (final_with debugging serving))
  = [(mnt, fst (mountOptions debugging (device remote)))].
Proof.
  destruct (fuse_mount_called_once debugging remote mnt serving
              (final_with debugging serving)) as [[Hc _]|(_ & H & _)].
  - vm_compute. reflexivity.
  - vm_compute in Hc. discriminate Hc.
  - exact H.
Defined.

Lemma fuse_debug_hook_witness :
  debug_sets (trace (final_with debugging serving)) = [tt].
Proof.
  apply (fuse_debug_hook debugging remote mnt serving).
  - vm_compute. reflexivity.
  - vm_compute. discriminate.
Defined.


Lemma serve_result_ends_Mount_witness :
  exists serveErr closeErr,
    ctl (final serve_error)
    = Done (Wrap (first_non_nil [serveErr; closeErr]) tag_umount)
    /\ unmount_calls (trace (final serve_error)) = [].
Proof.
  destruct (serve_result_ends_Mount all_off remote mnt serve_error
              (final serve_error))
    as (se & ce & _ & _ & Hd & Hu & _).
  - vm_compute. reflexivity.
  - vm_compute. discriminate.
  - exists se, ce. split; assumption.
Defined.


Lemma interrupt_ends_Mount_witness :
  exists st',
    run all_off remote mnt (final serving)
      [Deliver SIGTERM; SelectSigInt; UnmountReturns (Some "device busy")]
    = Some st'
    /\ ctl st' = Done (Some "failed to umount FUSE fs: device busy").
Proof.
  destruct (interrupt_ends_Mount all_off remote mnt serving (final serving)
              SIGTERM (Some "device busy"))
    as (st' & Hrun & Hd & _).
  - vm_compute. reflexivity.
  - vm_compute. reflexivity.
  - discriminate.
  - exists st'. split; assumption.
Defined.

Lemma signals_routed_witness :
  Forall (eq SIGHUP) (hangups (trace (final two_hangups_then_interrupt)))
  /\ Forall not_hangup (sigInt (final two_hangups_then_interrupt)).
Proof.
  destruct (signals_routed all_off remote mnt two_hangups_then_interrupt
              (final two_hangups_then_interrupt))
    as (H1 & _ & _ & H2 & _).
  - vm_compute. reflexivity.
  - split; assumption.
Defined.

Lemma cache_clears_accounted_witness :
  List.length (forget_alls (trace (final two_hangups_then_interrupt)))
  + List.length
      (failures (root_rets (trace (final two_hangups_then_interrupt))))
  = List.length (hangups (trace (final two_hangups_then_interrupt))).
Proof.
  apply (cache_clears_accounted all_off remote mnt
           two_hangups_then_interrupt).
  vm_compute. reflexivity.
Defined.

Lemma nothing_before_established_witness :
  notifying (final mount_error_at_ready) = false
  /\ unmount_calls (trace (final mount_error_at_ready)) = [].
Proof.
  destruct (nothing_before_established all_off remote mnt
              mount_error_at_ready (final mount_error_at_ready))
    as (Hn & _ & _ & _ & _ & _ & _ & _ & Hu).
  - vm_compute. reflexivity.
  - unfold established. vm_compute. intros [_ H]. discriminate H.
  - split; assumption.
Defined.

Lemma serve_then_close_then_send_witness :
  List.length (serve_rets (trace (final interrupted_after_serve_error))) <= 1
  /\ List.length (close_rets (trace (final interrupted_after_serve_error)))
     <= 1.
Proof.
  destruct (serve_then_close_then_send all_off remote mnt
              interrupted_after_serve_error
              (final interrupted_after_serve_error))
    as (H1 & H2 & _).
  - vm_compute. reflexivity.
  - split; assumption.
Defined.

End ConductScenarios.
